(** * Thurstonian utility model: estimator, pairwise probability, cross-entropy

    Shallow embedding of the code cells of [thurstonian_model.ipynb].

    Numbers.  Python floats and [np.float64] values are modelled by real
    numbers extended with [+inf], [-inf] and [nan] ([np_float]): arithmetic
    on finite values is exact (rounding, overflow and underflow are not
    modelled), while the two operations by which the notebook can leave the
    finite range, division by zero and logarithm of a non-positive number,
    produce the special values NumPy produces.

    Library code.  [scipy.stats.norm.cdf], the iteration order of a Python
    [set] and [scipy.optimize.minimize] are not code of the notebook; the
    embedding takes them as parameters.  The standard normal distribution
    function itself is [Norm.Phi]. *)

From Stdlib Require Import Reals Lra FunctionalExtensionality.
From stdpp Require Import gmap strings list fin_maps.

Open Scope R_scope.

(** ** Python exceptions and results *)

Inductive py_exn : Type :=
  | ValueError (msg : string)
  | KeyError (key : string)
  | IndexError
  | ZeroDivisionError.

Inductive result (A : Type) : Type :=
  | Ok (a : A)
  | Raise (e : py_exn).

Arguments Ok {A} a.
Arguments Raise {A} e.

#[global] Instance result_ret : MRet result := fun A a => Ok a.

#[global] Instance result_bind : MBind result := fun A B f m =>
  match m with
  | Ok a => f a
  | Raise e => Raise e
  end.

(** [d[k]] on a dict. *)
Definition dict_getitem (d : gmap string R) (k : string) : result R :=
  match d !! k with
  | Some v => Ok v
  | None => Raise (KeyError k)
  end.

(** [l[i]] on a sequence, for a non-negative index. *)
Definition list_getitem {A : Type} (l : list A) (i : nat) : result A :=
  match l !! i with
  | Some v => Ok v
  | None => Raise IndexError
  end.

(** ** NumPy floating-point values *)

Module Np.

Inductive np_float : Type :=
  | Fin (r : R)
  | PInf
  | NInf
  | NaN.

(** The infinity carrying the sign of [a]; [nan] when [a] is zero. *)
Definition signed_inf (a : R) : np_float :=
  if Rlt_dec 0 a then PInf else if Rlt_dec a 0 then NInf else NaN.

Definition neg (x : np_float) : np_float :=
  match x with
  | Fin a => Fin (- a)
  | PInf => NInf
  | NInf => PInf
  | NaN => NaN
  end.

Definition add (x y : np_float) : np_float :=
  match x, y with
  | NaN, _ | _, NaN => NaN
  | Fin a, Fin b => Fin (a + b)
  | PInf, NInf | NInf, PInf => NaN
  | PInf, _ | _, PInf => PInf
  | NInf, _ | _, NInf => NInf
  end.

Definition sub (x y : np_float) : np_float := add x (neg y).

Definition mul (x y : np_float) : np_float :=
  match x, y with
  | NaN, _ | _, NaN => NaN
  | Fin a, Fin b => Fin (a * b)
  | Fin a, PInf | PInf, Fin a => signed_inf a
  | Fin a, NInf | NInf, Fin a => signed_inf (- a)
  | PInf, PInf | NInf, NInf => PInf
  | PInf, NInf | NInf, PInf => NInf
  end.

(** [x / y] on NumPy scalars: no exception, a zero divisor gives an
    infinity or [nan].  Every divisor of the notebook is a square root or a
    length, so a zero divisor is [+0.0]. *)
Definition div (x y : np_float) : np_float :=
  match x, y with
  | NaN, _ | _, NaN => NaN
  | Fin a, Fin b => if Req_dec_T b 0 then signed_inf a else Fin (a / b)
  | Fin _, (PInf | NInf) => Fin 0
  | PInf, Fin b => if Rlt_dec b 0 then NInf else PInf
  | NInf, Fin b => if Rlt_dec b 0 then PInf else NInf
  | (PInf | NInf), (PInf | NInf) => NaN
  end.

(** [np.log]: [-inf] at zero, [nan] below. *)
Definition log (x : np_float) : np_float :=
  match x with
  | Fin a => if Rlt_dec 0 a then Fin (ln a)
             else if Req_dec_T a 0 then NInf else NaN
  | PInf => PInf
  | NInf => NaN
  | NaN => NaN
  end.


End Np.

Abbreviation np_float := Np.np_float.
Abbreviation Fin := Np.Fin.
Abbreviation PInf := Np.PInf.
Abbreviation NInf := Np.NInf.
Abbreviation NaN := Np.NaN.

(** A Python number held in an accumulator that starts as the [int]
    literal [0] and becomes a NumPy scalar at the first update. *)
Inductive py_num : Type :=
  | PyInt (z : Z)
  | NpFloat (x : np_float).

Definition py_value (v : py_num) : np_float :=
  match v with
  | PyInt z => Fin (IZR z)
  | NpFloat x => x
  end.

(** [acc + x], [acc - x] with [x] a NumPy scalar: the result is one. *)
Definition py_add (acc : py_num) (x : np_float) : py_num :=
  NpFloat (Np.add (py_value acc) x).

Definition py_sub (acc : py_num) (x : np_float) : py_num :=
  NpFloat (Np.sub (py_value acc) x).

(** [-acc] *)
Definition py_neg (acc : py_num) : py_num :=
  match acc with
  | PyInt z => PyInt (- z)
  | NpFloat x => NpFloat (Np.neg x)
  end.

(** [acc / n] with [n] a Python [int]: [int / int] raises on a zero
    divisor, a NumPy scalar does not. *)
Definition py_truediv (acc : py_num) (n : nat) : result np_float :=
  match acc with
  | PyInt z =>
      match n with
      | O => Raise ZeroDivisionError
      | S _ => Ok (Fin (IZR z / INR n))
      end
  | NpFloat x => Ok (Np.div x (Fin (INR n)))
  end.

(** ** The standard normal distribution *)

Module Norm.

(** Density of the standard normal distribution. *)
Definition pdf (t : R) : R := exp (- (t * t) / 2) / sqrt (2 * PI).

Lemma pdf_continuous t : continuity_pt pdf t.
Proof. apply derivable_continuous_pt. unfold pdf. reg. Qed.

Lemma pdf_integrable (a b : R) : Riemann_integrable pdf a b.
Proof.
  destruct (Rle_dec a b) as [Hab | Hab].
  - apply continuity_implies_RiemannInt;
      [exact Hab | intros; apply pdf_continuous].
  - apply RiemannInt_P1. apply continuity_implies_RiemannInt.
    + lra.
    + intros; apply pdf_continuous.
Defined.

(** The integral of the density from [a] to [b] (negative when [b < a]). *)
Definition mass (a b : R) : R := RiemannInt (pdf_integrable a b).

(** The distribution function: one half (the mass below the mean) plus the
    mass between [0] and [x]. *)
Definition Phi (x : R) : R := 1 / 2 + mass 0 x.

End Norm.

(** ** The notebook *)

(** One comparison: [(A, B, chosen)]. *)
Definition comparison : Type := string * string * string.

(** The module-level dicts [mu] and [sigma]; the objective overwrites them
    at every evaluation. *)
Record globals : Type := Globals {
  mu : gmap string R;
  sigma : gmap string R
}.

(** [scipy.optimize.OptimizeResult], the fields the notebook reads. *)
Record OptimizeResult : Type := {
  res_x : list R;
  res_fun : np_float;
  res_success : bool
}.

(** What the first cell prints. *)
Record estimates : Type := {
  parameters : list (string * (R * R));
  log_likelihood : np_float;
  converged : bool
}.

(** [epsilon = 1e-10] *)
Definition epsilon : R := 1 / 10 ^ 10.

(** [[item for sublist in data for item in sublist[:2]]] *)
Definition option_items (data : list comparison) : list string :=
  flat_map (fun r : comparison => let '(A, B, _) := r in [A; B]) data.

(** [set([...])] *)
Definition option_set (data : list comparison) : gset string :=
  list_to_set (option_items data).

(** The objective as the optimizer sees it: a callable on a parameter
    vector that reads and writes the module-level dicts. *)
Definition objective : Type :=
  list R -> globals -> result (py_num * globals).

Section Notebook.

(** [norm.cdf] on a finite argument. *)
Variable norm_cdf : R -> R.

(** [list(s)] for a set [s]: the elements in the iteration order of the
    running interpreter. *)
Variable list_of_set : gset string -> list string.

(** [minimize(fun, x0, method="L-BFGS-B", bounds=bounds)] *)
Variable minimize :
  objective -> list R -> list (R * R) -> globals ->
  result (OptimizeResult * globals).

(** [norm.cdf] on any NumPy value. *)
Definition np_cdf (x : np_float) : np_float :=
  match x with
  | Np.Fin z => Fin (norm_cdf z)
  | Np.PInf => Fin 1
  | Np.NInf => Fin 0
  | Np.NaN => NaN
  end.

(** [options = list(set([...]))] *)
Definition options_of (data : list comparison) : list string :=
  list_of_set (option_set data).

(** The first loop of [neg_log_likelihood], from index [i] on:
    [mu[opt] = params[i]; sigma[opt] = np.exp(params[i + len(options)])].
    An [IndexError] ends the evaluation; the half-updated dicts are not
    read again. *)
Fixpoint unpack_params (n : nat) (params : list R) (i : nat)
    (opts : list string) (g : globals) : result globals :=
  match opts with
  | [] => Ok g
  | opt :: rest =>
      m ← list_getitem params i;
      let mu' := <[opt := m]> (mu g) in
      s ← list_getitem params (i + n);
      let sigma' := <[opt := exp s]> (sigma g) in
      unpack_params n params (S i) rest (Globals mu' sigma')
  end.

(** The term added to [likelihood] for one record. *)
Definition record_log_likelihood (g : globals) (r : comparison)
    : result np_float :=
  let '(A, B, chosen) := r in
  mu_A ← dict_getitem (mu g) A;
  mu_B ← dict_getitem (mu g) B;
  let mu_diff := mu_A - mu_B in
  sigma_A ← dict_getitem (sigma g) A;
  sigma_B ← dict_getitem (sigma g) B;
  let sigma_sum := sqrt (sigma_A ^ 2 + sigma_B ^ 2) in
  let prob_A := np_cdf (Np.div (Fin mu_diff) (Fin (sigma_sum + epsilon))) in
  mret (Np.log (if decide (chosen = A) then prob_A
                else Np.add (Np.sub (Fin 1) prob_A) (Fin epsilon))).

(** The second loop of [neg_log_likelihood]. *)
Fixpoint accumulate_likelihood (g : globals) (data : list comparison)
    (likelihood : py_num) : result py_num :=
  match data with
  | [] => Ok likelihood
  | r :: rest =>
      l ← record_log_likelihood g r;
      accumulate_likelihood g rest (py_add likelihood l)
  end.

Definition neg_log_likelihood (options : list string)
    (data : list comparison) : objective :=
  fun params g =>
    g' ← unpack_params (length options) params 0 options g;
    likelihood ← accumulate_likelihood g' data (PyInt 0);
    mret (py_neg likelihood, g').

(** [{opt: v for opt in options}] *)
Definition dict_of_keys (v : R) (options : list string) : gmap string R :=
  foldl (fun d opt => <[opt := v]> d) ∅ options.

(** The printing loop: [options[i]] with [mu_estimates[i]] and
    [sigma_estimates[i]]. *)
Fixpoint tabulate (i : nat) (opts : list string)
    (mu_estimates sigma_estimates : list R)
    : result (list (string * (R * R))) :=
  match opts with
  | [] => Ok []
  | opt :: rest =>
      m ← list_getitem mu_estimates i;
      s ← list_getitem sigma_estimates i;
      rows ← tabulate (S i) rest mu_estimates sigma_estimates;
      mret ((opt, (m, s)) :: rows)
  end.

(** The first code cell, from [options = ...] to the last [print]. *)
Definition fit (data : list comparison) : result estimates :=
  let options := options_of data in
  if (length options <? 2)%nat then
    Raise (ValueError "Insufficient unique options in the data")
  else
    let g0 := Globals (dict_of_keys 0 options) (dict_of_keys 1 options) in
    let n := length options in
    let init_params := replicate n 0 ++ replicate n 0 in
    let bounds := replicate n (-10, 10) ++ replicate n (-10, 2) in
    out ← minimize (neg_log_likelihood options data) init_params bounds g0;
    let res := fst out in
    let mu_estimates := take n (res_x res) in
    let sigma_estimates := exp <$> drop n (res_x res) in
    rows ← tabulate 0 options mu_estimates sigma_estimates;
    mret {| parameters := rows;
            log_likelihood := Np.neg (res_fun res);
            converged := res_success res |}.

(** [calculate_pairwise_prob] *)
Definition calculate_pairwise_prob (mu_X mu_Y sigma_X sigma_Y : R)
    : np_float :=
  np_cdf (Np.div (Fin (mu_X - mu_Y)) (Fin (sqrt (sigma_X ^ 2 + sigma_Y ^ 2)))).

(** The loop body of [calculate_cross_entropy], given [p_X_over_Y] and
    [y]: [cross_entropy -= (y * np.log(p) + (1-y) * np.log(1 - p))]. *)
Definition cross_entropy_update (cross_entropy : py_num)
    (p_X_over_Y : np_float) (y : Z) : py_num :=
  py_sub cross_entropy
    (Np.add (Np.mul (Fin (IZR y)) (Np.log p_X_over_Y))
            (Np.mul (Fin (IZR (1 - y)))
                    (Np.log (Np.sub (Fin 1) p_X_over_Y)))).

Fixpoint cross_entropy_loop (data : list comparison)
    (mu sigma : gmap string R) (cross_entropy : py_num) : result py_num :=
  match data with
  | [] => Ok cross_entropy
  | (X, Y, chosen) :: rest =>
      mu_X ← dict_getitem mu X;
      mu_Y ← dict_getitem mu Y;
      sigma_X ← dict_getitem sigma X;
      sigma_Y ← dict_getitem sigma Y;
      let p_X_over_Y := calculate_pairwise_prob mu_X mu_Y sigma_X sigma_Y in
      let y := if decide (chosen = X) then 1%Z else 0%Z in
      cross_entropy_loop rest mu sigma
        (cross_entropy_update cross_entropy p_X_over_Y y)
  end.

(** [calculate_cross_entropy] *)
Definition calculate_cross_entropy (data : list comparison)
    (mu sigma : gmap string R) : result np_float :=
  total ← cross_entropy_loop data mu sigma (PyInt 0);
  py_truediv total (length data).

End Notebook.

(** ** The raw-frequency cell *)

(** [sum(1 for r in data if cond(r))] *)
Definition sum_ones (cond : comparison -> bool) (data : list comparison) : Z :=
  foldl (fun acc r => if cond r then (acc + 1)%Z else acc) 0%Z data.

(** The condition of [A_wins]. *)
Definition is_A_win (r : comparison) : bool :=
  let '(a, b, chosen) := r in
  (bool_decide (a = "A") && bool_decide (b = "B") && bool_decide (chosen = "A"))
  || (bool_decide (a = "B") && bool_decide (b = "A")
      && bool_decide (chosen = "A")).

(** [set([a, b]) == set(['A', 'B'])] *)
Definition is_AB_comparison (r : comparison) : bool :=
  let '(a, b, _) := r in
  bool_decide (list_to_set [a; b] =@{gset string} list_to_set ["A"; "B"]).

Definition A_wins (data : list comparison) : Z := sum_ones is_A_win data.

Definition total_AB_comparisons (data : list comparison) : Z :=
  sum_ones is_AB_comparison data.

(** [a / b] on Python [int]s. *)
Definition int_truediv (a b : Z) : result R :=
  if decide (b = 0%Z) then Raise ZeroDivisionError else Ok (IZR a / IZR b).

(** [raw_prob_A_greater_B = A_wins / total_AB_comparisons] *)
Definition raw_prob_A_greater_B (data : list comparison) : result R :=
  int_truediv (A_wins data) (total_AB_comparisons data).

(** ** The worked example *)

(** The ten records of the first cell. *)
Definition data : list comparison :=
  [ ("B", "A", "B"); ("A", "C", "C"); ("B", "C", "B"); ("A", "B", "A");
    ("C", "A", "C"); ("C", "B", "B"); ("B", "A", "B"); ("A", "C", "A");
    ("C", "B", "C"); ("A", "B", "B") ]%string.

(** ** Instances of the library code and inputs used in examples *)





#[local] Instance Rle_decision (a b : R) : Decision (a <= b) := Rle_dec a b.

(** [np.clip(x, lb, ub)], as the optimizer applies it to the start point. *)
Definition clip (x : R) (b : R * R) : R := Rmax (fst b) (Rmin x (snd b)).

(** An optimizer run that stops at its (clipped) start point: the objective
    is evaluated there once, and that point is reported. *)
Definition minimize_initial_point (f : objective) (x0 : list R)
    (bounds : list (R * R)) (g : globals)
    : result (OptimizeResult * globals) :=
  if decide (length x0 = length bounds /\
             Forall (fun b => fst b <= snd b) bounds)
  then
    let x := zip_with clip x0 bounds in
    out ← f x g;
    mret ({| res_x := x; res_fun := py_value (fst out); res_success := true |},
          snd out)
  else Raise (ValueError "An upper bound is less than the lower bound.").

(** Two iteration orders for the option set of the worked example: the
    sorted one, and the one of the recorded run, whose output lists
    [A], [C], [B]. *)
Definition iterate_sorted (s : gset string) : list string :=
  if decide (s = option_set data) then ["A"; "B"; "C"]%string else elements s.

Definition iterate_recorded (s : gset string) : list string :=
  if decide (s = option_set data) then ["A"; "C"; "B"]%string else elements s.

(** The dicts of the last code cell. *)
Definition mu_recorded : gmap string R :=
  <["C" := 0]> (<["B" := 57 / 100]> (<["A" := -57 / 100]> ∅)).

Definition sigma_recorded : gmap string R :=
  <["C" := 57 / 100]> (<["B" := 12 / 10]> (<["A" := 12 / 10]> ∅)).


(** ** Assumptions on the library code *)

(** Iterating over a set yields each element exactly once, in some order. *)
Definition set_listing (list_of_set : gset string -> list string) : Prop :=
  forall s, list_of_set s ≡ₚ elements s.

(** L-BFGS-B returns a point of the box it was given. *)
Definition respects_bounds
    (minimize : objective -> list R -> list (R * R) -> globals ->
                result (OptimizeResult * globals)) : Prop :=
  forall f x0 bounds g res g',
    minimize f x0 bounds g = Ok (res, g') ->
    Forall2 (fun x b => fst b <= x <= snd b) (res_x res) bounds.

(** ** The objective as the specification words it *)

(** Position of an option in the option list. *)
Fixpoint index_of (x : string) (l : list string) : option nat :=
  match l with
  | [] => None
  | y :: l' => if decide (x = y) then Some O else S <$> index_of x l'
  end.

(** The first [n] entries of the vector are the means. *)
Definition spec_mu (options : list string) (params : list R) (A : string)
    : option R :=
  i ← index_of A options; params !! i.

(** The exponentials of the last [n] entries are the deviations. *)
Definition spec_sigma (options : list string) (params : list R) (A : string)
    : option R :=
  i ← index_of A options; exp <$> params !! (length options + i)%nat.

(** [−log(p)] when [chosen == A], [−log(1 − p + ε)] otherwise, with
    [d = μ[A] − μ[B]], [s = sqrt(σ[A]² + σ[B]²) + ε] and [p = Φ(d / s)]. *)
Definition spec_term (Φ : R -> R) (options : list string) (params : list R)
    (r : comparison) : option np_float :=
  let '(A, B, chosen) := r in
  mu_A ← spec_mu options params A;
  mu_B ← spec_mu options params B;
  sigma_A ← spec_sigma options params A;
  sigma_B ← spec_sigma options params B;
  let d := mu_A - mu_B in
  let s := sqrt (sigma_A ^ 2 + sigma_B ^ 2) + epsilon in
  let p := Φ (d / s) in
  Some (Np.neg (Np.log (Fin (if decide (chosen = A) then p
                             else 1 - p + epsilon)))).

(** The sum of the accumulated terms. *)
Definition np_sum (terms : list np_float) : np_float :=
  foldl Np.add (Fin 0) terms.

Definition spec_neg_log_likelihood (Φ : R -> R) (options : list string)
    (data : list comparison) (params : list R) : option np_float :=
  np_sum <$> mapM (spec_term Φ options params) data.

(** ** Cross-entropy as the specification words it *)

(** [−(y·log(p) + (1−y)·log(1−p))] *)
Definition binary_cross_entropy (p : R) (y : R) : R :=
  - (y * ln p + (1 - y) * ln (1 - p)).

(** [Φ((μ_X − μ_Y) / sqrt(σ_X² + σ_Y²))] *)
Definition spec_probability (Φ : R -> R) (mu_X mu_Y sigma_X sigma_Y : R) : R :=
  Φ ((mu_X - mu_Y) / sqrt (sigma_X ^ 2 + sigma_Y ^ 2)).

(** The probability and the target of one record under given parameters. *)
Definition record_probability (Φ : R -> R) (mu sigma : gmap string R)
    (r : comparison) : option R :=
  let '(X, Y, _) := r in
  mu_X ← mu !! X; mu_Y ← mu !! Y;
  sigma_X ← sigma !! X; sigma_Y ← sigma !! Y;
  Some (spec_probability Φ mu_X mu_Y sigma_X sigma_Y).

(** [y = 1] if [chosen == X], else [0]. *)
Definition record_target (r : comparison) : R :=
  let '(X, _, chosen) := r in if decide (chosen = X) then 1 else 0.

Definition record_cross_entropy (Φ : R -> R) (mu sigma : gmap string R)
    (r : comparison) : option R :=
  p ← record_probability Φ mu sigma r;
  Some (binary_cross_entropy p (record_target r)).

Definition Rsum (l : list R) : R := foldr Rplus 0 l.


(** The model probabilities of the worked example under the dicts of the
    last code cell: B over A, C over A and B over C. *)
Definition p_BA : R :=
  spec_probability Norm.Phi (57 / 100) (-57 / 100) (12 / 10) (12 / 10).
Definition p_CA : R :=
  spec_probability Norm.Phi 0 (-57 / 100) (57 / 100) (12 / 10).
Definition p_BC : R :=
  spec_probability Norm.Phi (57 / 100) 0 (12 / 10) (57 / 100).

(** ** Relations used in the statements *)

(** The dicts agree with the specification's reading of the vector on
    every listed option. *)
Definition unpacked (options : list string) (params : list R) (g : globals)
    : Prop :=
  forall k, k ∈ options ->
    exists m s,
      mu g !! k = Some m /\ spec_mu options params k = Some m /\
      sigma g !! k = Some s /\ spec_sigma options params k = Some s.

(** Two records present the same options and give the same answer to the
    only test the objective makes, [chosen == A]. *)
Definition same_choice_test (r r' : comparison) : Prop :=
  let '(A, B, chosen) := r in
  let '(A', B', chosen') := r' in
  A = A' /\ B = B' /\ (chosen = A <-> chosen' = A').


(** The vector with [c] added to its first [n] entries, the means. *)
Definition shift_means (n : nat) (c : R) (params : list R) : list R :=
  ((fun m => m + c) <$> take n params) ++ drop n params.

(** Number of records whose chosen option is the first one presented. *)
Definition first_chosen_count (records : list comparison) : nat :=
  length (filter (fun r : comparison => r.2 = r.1.1) records).

(** The term of one record at the start point. *)
Definition start_term (r : comparison) : R :=
  if decide (r.2 = r.1.1) then ln 2 else - ln (1 / 2 + epsilon).

(** The record with its two options presented in the other order. *)
Definition swap_presentation (r : comparison) : comparison :=
  let '(a, b, chosen) := r in (b, a, chosen).


(** ** Facts about the standard normal distribution *)

Module NormFacts.

Import Norm.

Lemma sqrt_2PI_pos : 0 < sqrt (2 * PI).
Proof. apply sqrt_lt_R0. pose proof PI_RGT_0. lra. Qed.

Lemma pdf_pos t : 0 < pdf t.
Proof.
  unfold pdf. apply Rdiv_lt_0_compat; [apply exp_pos | apply sqrt_2PI_pos].
Qed.

Lemma pdf_even t : pdf (- t) = pdf t.
Proof. unfold pdf. f_equal. f_equal. lra. Qed.

Lemma mass_eq a b (pr : Riemann_integrable pdf a b) : RiemannInt pr = mass a b.
Proof. apply RiemannInt_P5. Qed.

Lemma mass_chasles a b c : mass a b + mass b c = mass a c.
Proof. apply RiemannInt_P26. Qed.

Lemma mass_swap a b : mass a b = - mass b a.
Proof. apply RiemannInt_P8. Qed.

Lemma mass_refl a : mass a a = 0.
Proof. apply RiemannInt_P9. Qed.


(** The density is even, so the mass of [[-M, 0]] is that of [[0, M]]:
    [t ↦ mass (-M) t] and [t ↦ - mass (-M) (-t)] are two primitives of
    the density on [[-M, M]], hence differ by a constant. *)
Lemma mass_reflect_nonneg M : 0 <= M -> mass (- M) 0 = mass 0 M.
Proof.
  intros HM.
  assert (h : - M <= M) by lra.
  pose (C0 := fun x (_ : - M <= x <= M) => pdf_continuous x).
  pose (P := primitive h (FTC_P1 h C0)).
  assert (HP : forall t, - M <= t <= M -> P t = mass (- M) t).
  { intros t [H1 H2]. unfold P, primitive.
    destruct (Rle_dec (- M) t); [| lra]. destruct (Rle_dec t M); [| lra].
    apply mass_eq. }
  assert (A1 : antiderivative pdf P (- M) M) by apply RiemannInt_P29.
  assert (A2 : antiderivative pdf (fun t => - P (- t)) (- M) M).
  { split; [| lra]. intros t Ht.
    assert (D : derivable_pt_lim (fun t => - P (- t)) t (pdf t)).
    { replace (pdf t) with (- (pdf (- t) * -1)) by (rewrite pdf_even; lra).
      change (derivable_pt_lim (- comp P (- id))%F t (- (pdf (- t) * -1))).
      apply derivable_pt_lim_opp. apply derivable_pt_lim_comp.
      - apply derivable_pt_lim_opp. apply derivable_pt_lim_id.
      - apply (RiemannInt_P28 h C0). unfold opp_fct, id. lra. }
    exists (exist _ _ D). reflexivity. }
  destruct (antiderivative_Ucte _ _ _ _ _ A1 A2) as [c Hc].
  pose proof (Hc M ltac:(lra)) as E1.
  pose proof (Hc 0 ltac:(lra)) as E2.
  cbv beta in E1, E2. rewrite Ropp_0 in E2.
  rewrite (HP M), (HP (- M)) in E1 by lra.
  rewrite (HP 0) in E2 by lra.
  rewrite mass_refl in E1.
  rewrite <- (mass_chasles (- M) 0 M) in E1.
  lra.
Qed.

Lemma mass_reflect x : mass 0 (- x) = - mass 0 x.
Proof.
  destruct (Rle_dec 0 x) as [Hx | Hx].
  - rewrite mass_swap. f_equal. apply mass_reflect_nonneg; exact Hx.
  - rewrite (mass_swap 0 x).
    rewrite <- (mass_reflect_nonneg (- x)) by lra.
    rewrite Ropp_involutive. lra.
Qed.

Lemma Phi_0 : Phi 0 = 1 / 2.
Proof. unfold Phi. rewrite mass_refl. lra. Qed.


Lemma Phi_reflect x : Phi (- x) = 1 - Phi x.
Proof. unfold Phi. rewrite mass_reflect. lra. Qed.

Lemma sqrt_between x lo hi :
  0 <= lo -> lo * lo <= x -> x <= hi * hi -> 0 <= hi -> lo <= sqrt x <= hi.
Proof.
  intros Hlo Hx1 Hx2 Hhi. split.
  - rewrite <- (sqrt_square lo) by exact Hlo. apply sqrt_le_1; nra.
  - rewrite <- (sqrt_square hi) by exact Hhi. apply sqrt_le_1; nra.
Qed.

Lemma pdf_decreasing a b : 0 <= a -> a <= b -> pdf b <= pdf a.
Proof.
  intros Ha Hab. unfold pdf. pose proof sqrt_2PI_pos as Hs.
  apply Rmult_le_compat_r; [left; by apply Rinv_0_lt_compat |].
  destruct (Req_dec (a * a) (b * b)) as [E | Hne]; [rewrite E; lra |].
  left. apply exp_increasing. nra.
Qed.

Lemma Phi_between z :
  0 <= z -> 1 / 2 + pdf z * z <= Phi z <= 1 / 2 + pdf 0 * z.
Proof.
  intros Hz. unfold Phi.
  assert (H : pdf z * (z - 0) <= mass 0 z <= pdf 0 * (z - 0)).
  { apply RiemannInt_const_bound; [exact Hz |].
    intros t Ht. split; apply pdf_decreasing; lra. }
  rewrite Rminus_0_r in H. lra.
Qed.

Lemma pdf_0_bounds : 353 / 1000 <= pdf 0 <= 41 / 100.
Proof.
  unfold pdf. replace (- (0 * 0) / 2) with 0 by lra. rewrite exp_0.
  pose proof PI2_3_2. pose proof PI_4.
  destruct (sqrt_between (2 * PI) (244 / 100) (283 / 100)) as [H1 H2];
    try lra.
  split.
  - apply Rle_trans with (1 / (283 / 100)); [lra |].
    apply Rmult_le_compat_l; [lra |]. apply Rinv_le_contravar; lra.
  - apply Rle_trans with (1 / (244 / 100)); [| lra].
    apply Rmult_le_compat_l; [lra |]. apply Rinv_le_contravar; lra.
Qed.

Lemma pdf_lower z : pdf 0 * (1 - z * z / 2) <= pdf z.
Proof.
  unfold pdf. replace (- (0 * 0) / 2) with 0 by lra. rewrite exp_0.
  pose proof sqrt_2PI_pos as Hs.
  pose proof (exp_ineq1_le (- (z * z) / 2)) as He.
  unfold Rdiv at 1 3. rewrite Rmult_1_l, (Rmult_comm (/ _)).
  apply Rmult_le_compat_r; [left; by apply Rinv_0_lt_compat | lra].
Qed.

Lemma Phi_window z zlo zhi :
  0 <= zlo -> zlo <= z -> z <= zhi -> zhi * zhi <= 2 ->
  1 / 2 + 353 / 1000 * (1 - zhi * zhi / 2) * zlo <= Phi z
  /\ Phi z <= 1 / 2 + 41 / 100 * zhi.
Proof.
  intros H0 Hlo Hhi H2.
  destruct (Phi_between z ltac:(lra)) as [Hl Hu].
  destruct pdf_0_bounds as [Hc1 Hc2].
  pose proof (pdf_lower z) as Hp.
  assert (Hzz : z * z <= zhi * zhi) by nra.
  assert (H1 : 353 / 1000 * (1 - zhi * zhi / 2) <= pdf z).
  { apply Rle_trans with (pdf 0 * (1 - z * z / 2)); [| exact Hp]. nra. }
  split; [| nra].
  apply Rle_trans with (1 / 2 + pdf z * z); [| exact Hl].
  assert (353 / 1000 * (1 - zhi * zhi / 2) * zlo <= pdf z * z); [| lra].
  apply Rmult_le_compat; nra.
Qed.

End NormFacts.

(** ** Auxiliary facts *)

Lemma bind_Ok {A B : Type} (m : result A) (f : A -> result B) (b : B) :
  m ≫= f = Ok b -> exists a, m = Ok a /\ f a = Ok b.
Proof. destruct m as [a | e]; [eauto | discriminate]. Qed.

Lemma index_of_None k l : index_of k l = None <-> k ∉ l.
Proof.
  induction l as [| y l IH]; simpl.
  - split; [intros _; apply not_elem_of_nil | done].
  - case_decide as Hk.
    + subst. split; [discriminate | intros []; left].
    + rewrite fmap_None, IH, not_elem_of_cons. tauto.
Qed.

Lemma index_of_Some k l j : index_of k l = Some j -> l !! j = Some k.
Proof.
  revert j. induction l as [| y l IH]; simpl; intros j; [discriminate |].
  case_decide as Hk.
  - intros [= <-]. by subst.
  - destruct (index_of k l) as [i |]; simpl; [| discriminate].
    intros [= <-]. by apply IH.
Qed.

Lemma index_of_elem k l : k ∈ l -> exists j, index_of k l = Some j.
Proof.
  intros Hin. destruct (index_of k l) as [j |] eqn:E; [eauto |].
  by apply index_of_None in E.
Qed.

Lemma index_of_lt k l j : index_of k l = Some j -> (j < length l)%nat.
Proof. intros H. apply index_of_Some in H. by eapply lookup_lt_Some. Qed.

Lemma neg_add x y : Np.neg (Np.add x y) = Np.add (Np.neg x) (Np.neg y).
Proof.
  destruct x, y; simpl; try reflexivity. f_equal. lra.
Qed.

Lemma neg_foldl_add terms acc :
  Np.neg (foldl Np.add acc terms)
  = foldl Np.add (Np.neg acc) (Np.neg <$> terms).
Proof.
  revert acc. induction terms as [| t terms IH]; intros acc; simpl; [done |].
  by rewrite IH, neg_add.
Qed.

Lemma epsilon_pos : 0 < epsilon.
Proof. unfold epsilon. apply Rdiv_lt_0_compat; [lra | apply pow_lt; lra]. Qed.

Lemma sigma_sum_pos a b : 0 < sqrt (a ^ 2 + b ^ 2) + epsilon.
Proof.
  pose proof (sqrt_pos (a ^ 2 + b ^ 2)). pose proof epsilon_pos. lra.
Qed.

Lemma div_finite a b : b <> 0 -> Np.div (Fin a) (Fin b) = Fin (a / b).
Proof. intros Hb. simpl. destruct (Req_dec_T b 0); [done | reflexivity]. Qed.

Lemma sqrt_sum_squares_pos a b : 0 < a -> 0 < sqrt (a ^ 2 + b ^ 2).
Proof. intros Ha. apply sqrt_lt_R0. nra. Qed.

(** After the first loop of the objective, every listed option holds the
    entries of the vector at its position; other keys are untouched. *)
Lemma unpack_params_lookup n params opts :
  forall i g,
    NoDup opts ->
    (i + length opts <= n)%nat ->
    (n + n <= length params)%nat ->
    exists g',
      unpack_params n params i opts g = Ok g' /\
      (forall k, mu g' !! k =
         match index_of k opts with
         | Some j => params !! (i + j)%nat
         | None => mu g !! k
         end) /\
      (forall k, sigma g' !! k =
         match index_of k opts with
         | Some j => exp <$> params !! (i + j + n)%nat
         | None => sigma g !! k
         end).
Proof.
  induction opts as [| opt rest IH]; intros i g Hnd Hi Hn; simpl in *.
  - exists g. done.
  - apply NoDup_cons in Hnd as [Hnotin Hnd].
    destruct (lookup_lt_is_Some_2 params i) as [m Hm]; [lia |].
    destruct (lookup_lt_is_Some_2 params (i + n)) as [s Hs]; [lia |].
    unfold list_getitem. rewrite Hm. simpl. rewrite Hs. simpl.
    destruct (IH (S i) (Globals (<[opt:=m]> (mu g)) (<[opt:=exp s]> (sigma g))))
      as (g' & Hg' & Hmu & Hsigma); [done | lia | lia |].
    exists g'. split; [exact Hg' |].
    apply index_of_None in Hnotin.
    split; intros k; [rewrite Hmu | rewrite Hsigma]; simpl;
      (case_decide as Hk;
       [ subst k; rewrite Hnotin, lookup_insert_eq, Nat.add_0_r;
         simpl; by rewrite ?Hm, ?Hs
       | destruct (index_of k rest) as [j |]; simpl;
         [ f_equal; f_equal; lia | by rewrite lookup_insert_ne ] ]).
Qed.

Section Objective.

Variable norm_cdf : R -> R.

Lemma unpack_params_unpacked options params g :
  NoDup options ->
  length params = (2 * length options)%nat ->
  exists g',
    unpack_params (length options) params 0 options g = Ok g' /\
    unpacked options params g'.
Proof.
  intros Hnd Hlen.
  destruct (unpack_params_lookup (length options) params options 0 g)
    as (g' & Hg' & Hmu & Hsigma); [done | lia | lia |].
  exists g'. split; [exact Hg' |].
  intros k Hk. destruct (index_of_elem _ _ Hk) as [j Hj].
  pose proof (index_of_lt _ _ _ Hj) as Hlt.
  destruct (lookup_lt_is_Some_2 params j) as [m Hm]; [lia |].
  destruct (lookup_lt_is_Some_2 params (length options + j)) as [s Hs];
    [lia |].
  exists m, (exp s). unfold spec_mu, spec_sigma.
  rewrite Hmu, Hsigma, Hj. simpl.
  replace (j + length options)%nat with (length options + j)%nat by lia.
  by rewrite Hm, Hs.
Qed.

Lemma record_log_likelihood_spec options params g A B chosen :
  unpacked options params g ->
  A ∈ options -> B ∈ options ->
  exists l,
    record_log_likelihood norm_cdf g (A, B, chosen) = Ok l /\
    spec_term norm_cdf options params (A, B, chosen) = Some (Np.neg l).
Proof.
  intros Hg HA HB.
  destruct (Hg A HA) as (mA & sA & HmA & HsmA & HsA & HssA).
  destruct (Hg B HB) as (mB & sB & HmB & HsmB & HsB & HssB).
  unfold record_log_likelihood, spec_term, dict_getitem.
  rewrite HmA, HmB, HsA, HsB, HsmA, HsmB, HssA, HssB.
  cbn [mbind result_bind option_bind mret result_ret].
  pose proof (sigma_sum_pos sA sB) as Hpos.
  rewrite div_finite by lra. cbn [np_cdf].
  eexists. split; [reflexivity |].
  case_decide; [reflexivity |].
  cbn [Np.sub Np.neg Np.add]. reflexivity.
Qed.

Lemma accumulate_likelihood_spec options params g data :
  unpacked options params g ->
  (forall x, x ∈ option_items data -> x ∈ options) ->
  forall likelihood,
  exists v ls,
    accumulate_likelihood norm_cdf g data likelihood = Ok v /\
    py_value v = foldl Np.add (py_value likelihood) ls /\
    mapM (spec_term norm_cdf options params) data = Some (Np.neg <$> ls).
Proof.
  intros Hg. induction data as [| [[A B] chosen] rest IH];
    intros Hin likelihood.
  - exists likelihood, []. done.
  - destruct (record_log_likelihood_spec options params g A B chosen)
      as (l & Hl & Hspec); [done | | |].
    { apply Hin. simpl. apply list_elem_of_here. }
    { apply Hin. simpl. apply list_elem_of_further, list_elem_of_here. }
    assert (Hrest : forall x, x ∈ option_items rest -> x ∈ options).
    { intros x Hx. apply Hin. simpl. by do 2 apply list_elem_of_further. }
    destruct (IH Hrest (py_add likelihood l))
      as (v & ls & Hv & Hval & Hterms).
    exists v, (l :: ls). cbn [accumulate_likelihood].
    rewrite Hl. cbn [mbind result_bind]. split; [exact Hv |].
    split; [exact Hval |].
    cbn [mapM]. rewrite Hspec, Hterms. reflexivity.
Qed.

Lemma py_value_neg v : py_value (py_neg v) = Np.neg (py_value v).
Proof. destruct v as [z | x]; simpl; [by rewrite opp_IZR | done]. Qed.

(** The objective on a duplicate-free list of options that covers the
    data, for a vector of the right length. *)
Lemma neg_log_likelihood_refines options data params g :
  NoDup options ->
  (forall x, x ∈ option_items data -> x ∈ options) ->
  length params = (2 * length options)%nat ->
  exists v g',
    neg_log_likelihood norm_cdf options data params g = Ok (v, g') /\
    unpacked options params g' /\
    spec_neg_log_likelihood norm_cdf options data params
      = Some (py_value v).
Proof.
  intros Hnd Hin Hlen.
  destruct (unpack_params_unpacked options params g Hnd Hlen)
    as (g' & Hg' & Hunp).
  destruct (accumulate_likelihood_spec options params g' data Hunp Hin
              (PyInt 0)) as (v & ls & Hv & Hval & Hterms).
  exists (py_neg v), g'. unfold neg_log_likelihood.
  rewrite Hg'. cbn [mbind result_bind]. rewrite Hv.
  split; [reflexivity |]. split; [exact Hunp |].
  unfold spec_neg_log_likelihood. rewrite Hterms. simpl.
  rewrite py_value_neg, Hval. unfold np_sum.
  rewrite neg_foldl_add. simpl. do 3 f_equal. lra.
Qed.

End Objective.

(** ** The option list under any iteration order *)

Section Options.

Variable list_of_set : gset string -> list string.
Hypothesis list_of_set_listing : set_listing list_of_set.

Lemma options_of_NoDup data : NoDup (options_of list_of_set data).
Proof.
  unfold options_of. rewrite (list_of_set_listing _). apply NoDup_elements.
Qed.

Lemma options_of_length data :
  length (options_of list_of_set data) = size (option_set data).
Proof. unfold options_of. by rewrite (list_of_set_listing _). Qed.

Lemma options_of_elem data x :
  x ∈ options_of list_of_set data <-> x ∈ option_items data.
Proof.
  unfold options_of, option_set.
  rewrite (list_of_set_listing _), elem_of_elements, elem_of_list_to_set.
  reflexivity.
Qed.

End Options.

Lemma elements_listing : set_listing elements.
Proof. intros s. reflexivity. Qed.

Lemma size_option_set_data : size (option_set data) = 3%nat.
Proof. vm_compute. reflexivity. Qed.

(** ** The objective *)

(** C1. Whatever the iteration order of the option set and whatever the
    dicts hold on entry, the objective applied to a vector of length [2·n]
    ([n] the number of distinct options) returns the sum, over the records,
    of [−log(p)] when [chosen == A] and [−log(1 − p + ε)] otherwise, where
    [p = Φ(d / s)], [d = μ[A] − μ[B]], [s = sqrt(σ[A]² + σ[B]²) + ε], the
    first [n] entries being [μ] and the exponentials of the last [n] being
    [σ]. *)
Theorem neg_log_likelihood_is_spec
    (norm_cdf : R -> R) (list_of_set : gset string -> list string)
    (records : list comparison) (params : list R) (g : globals) :
  set_listing list_of_set ->
  length params = (2 * size (option_set records))%nat ->
  exists v g',
    neg_log_likelihood norm_cdf (options_of list_of_set records) records
      params g = Ok (v, g') /\
    spec_neg_log_likelihood norm_cdf (options_of list_of_set records) records
      params = Some (py_value v).
Proof.
  intros Hset Hlen.
  destruct (neg_log_likelihood_refines norm_cdf
              (options_of list_of_set records) records params g)
    as (v & g' & Hrun & _ & Hspec).
  - by apply options_of_NoDup.
  - intros x Hx. by apply options_of_elem.
  - by rewrite options_of_length.
  - exists v, g'. split; assumption.
Qed.

Lemma neg_log_likelihood_is_spec_witness :
  exists v g',
    neg_log_likelihood Norm.Phi (options_of elements data) data
      [0; 0; 0; 0; 0; 0] (Globals ∅ ∅) = Ok (v, g') /\
    spec_neg_log_likelihood Norm.Phi (options_of elements data) data
      [0; 0; 0; 0; 0; 0] = Some (py_value v).
Proof.
  apply (neg_log_likelihood_is_spec Norm.Phi elements data).
  - exact elements_listing.
  - rewrite size_option_set_data. reflexivity.
Defined.

(** ** Pairwise probability *)

Lemma calculate_pairwise_prob_finite norm_cdf mu_X mu_Y sigma_X sigma_Y :
  0 < sigma_X ->
  calculate_pairwise_prob norm_cdf mu_X mu_Y sigma_X sigma_Y
  = Fin (spec_probability norm_cdf mu_X mu_Y sigma_X sigma_Y).
Proof.
  intros HX. unfold calculate_pairwise_prob, spec_probability.
  pose proof (sqrt_sum_squares_pos sigma_X sigma_Y HX).
  rewrite div_finite by lra. reflexivity.
Qed.





(** ** Cross-entropy *)

Lemma cross_entropy_update_finite acc a p y :
  py_value acc = Fin a -> 0 < p < 1 ->
  cross_entropy_update acc (Fin p) y
  = NpFloat (Fin (a + binary_cross_entropy p (IZR y))).
Proof.
  intros Ha [Hp0 Hp1]. unfold cross_entropy_update, py_sub. rewrite Ha.
  cbn [Np.log Np.sub Np.neg Np.add].
  destruct (Rlt_dec 0 p) as [_ | Hn]; [| lra].
  destruct (Rlt_dec 0 (1 + - p)) as [_ | Hn]; [| lra].
  cbn [Np.mul Np.add Np.neg]. do 2 f_equal.
  unfold binary_cross_entropy. rewrite minus_IZR. unfold Rminus. lra.
Qed.

Lemma record_target_IZR (X Y chosen : string) :
  IZR (if decide (chosen = X) then 1 else 0) = record_target (X, Y, chosen).
Proof. unfold record_target. by case_decide. Qed.

Section CrossEntropy.

Variable norm_cdf : R -> R.
Variables mu sigma : gmap string R.

(** The loop raises nothing but [KeyError], and its accumulator is a NumPy
    scalar as soon as one record has been processed. *)
Lemma cross_entropy_loop_outcome records acc :
  match cross_entropy_loop norm_cdf records mu sigma acc with
  | Ok v => (records = [] /\ v = acc) \/ exists x, v = NpFloat x
  | Raise e => exists k, e = KeyError k
  end.
Proof.
  revert acc. induction records as [| [[X Y] chosen] rest IH]; intros acc.
  - simpl. by left.
  - cbn [cross_entropy_loop]. unfold dict_getitem.
    destruct (mu !! X); cbn [mbind result_bind]; [| eauto].
    destruct (mu !! Y); cbn [mbind result_bind]; [| eauto].
    destruct (sigma !! X); cbn [mbind result_bind]; [| eauto].
    destruct (sigma !! Y); cbn [mbind result_bind]; [| eauto].
    match goal with |- context [cross_entropy_loop _ _ _ _ ?a] =>
      specialize (IH a); destruct (cross_entropy_loop norm_cdf rest mu sigma a)
    end; [| exact IH].
    right. destruct IH as [[_ ->] | IH]; [| exact IH].
    unfold cross_entropy_update, py_sub. eauto.
Qed.

(** With every key present, every deviation positive and every model
    probability strictly inside the unit interval, the loop adds the
    binary cross-entropy terms to the accumulator. *)
Lemma cross_entropy_loop_finite records :
  (forall X, X ∈ option_items records ->
     is_Some (mu !! X) /\ exists s, sigma !! X = Some s /\ 0 < s) ->
  (forall r p, r ∈ records ->
     record_probability norm_cdf mu sigma r = Some p -> 0 < p < 1) ->
  forall acc a, py_value acc = Fin a ->
  exists terms v,
    mapM (record_cross_entropy norm_cdf mu sigma) records = Some terms /\
    cross_entropy_loop norm_cdf records mu sigma acc = Ok v /\
    py_value v = Fin (a + Rsum terms).
Proof.
  induction records as [| [[X Y] chosen] rest IH]; intros Hkeys Hprob acc a Ha.
  - exists [], acc. simpl. rewrite Ha, Rplus_0_r. done.
  - destruct (Hkeys X) as [[mX HmX] (sX & HsX & HposX)];
      [simpl; apply list_elem_of_here |].
    destruct (Hkeys Y) as [[mY HmY] (sY & HsY & HposY)];
      [simpl; apply list_elem_of_further, list_elem_of_here |].
    assert (Hp : record_probability norm_cdf mu sigma (X, Y, chosen)
                 = Some (spec_probability norm_cdf mX mY sX sY)).
    { unfold record_probability. by rewrite HmX, HmY, HsX, HsY. }
    pose proof (Hprob _ _ (list_elem_of_here _ _) Hp) as Hrange.
    destruct (IH
      ltac:(intros Z HZ; apply Hkeys; simpl; by do 2 apply list_elem_of_further)
      ltac:(intros r p Hr; apply Hprob; by apply list_elem_of_further)
      (cross_entropy_update acc
         (calculate_pairwise_prob norm_cdf mX mY sX sY)
         (if decide (chosen = X) then 1%Z else 0%Z))
      (a + binary_cross_entropy (spec_probability norm_cdf mX mY sX sY)
             (record_target (X, Y, chosen))))
      as (terms & v & Hterms & Hloop & Hval).
    { rewrite calculate_pairwise_prob_finite by assumption.
      rewrite (cross_entropy_update_finite acc a) by assumption.
      by rewrite (record_target_IZR X Y chosen). }
    exists (binary_cross_entropy (spec_probability norm_cdf mX mY sX sY)
              (record_target (X, Y, chosen)) :: terms), v.
    split; [| split].
    + cbn [mapM]. rewrite Hterms. unfold record_cross_entropy. rewrite Hp.
      reflexivity.
    + cbn [cross_entropy_loop]. unfold dict_getitem.
      rewrite HmX, HmY, HsX, HsY. exact Hloop.
    + rewrite Hval. simpl. f_equal. lra.
Qed.

End CrossEntropy.


(** C10. On the empty list the accumulator is still the [int] [0] when it is
    divided by [len(data) = 0]: the function raises [ZeroDivisionError].
    On a non-empty list it never does. *)
Theorem calculate_cross_entropy_empty
    (norm_cdf : R -> R) (mu sigma : gmap string R) :
  calculate_cross_entropy norm_cdf [] mu sigma = Raise ZeroDivisionError /\
  (forall r rest,
     calculate_cross_entropy norm_cdf (r :: rest) mu sigma
     <> Raise ZeroDivisionError).
Proof.
  split; [reflexivity |].
  intros r rest. unfold calculate_cross_entropy.
  pose proof (cross_entropy_loop_outcome norm_cdf mu sigma (r :: rest)
                (PyInt 0)) as Hout.
  destruct (cross_entropy_loop norm_cdf (r :: rest) mu sigma (PyInt 0))
    as [v | e]; cbn [mbind result_bind].
  - destruct Hout as [[Hnil _] | [x ->]]; [discriminate | simpl; discriminate].
  - destruct Hout as [k ->]. discriminate.
Qed.

Lemma calculate_cross_entropy_empty_witness :
  calculate_cross_entropy Norm.Phi [] mu_recorded sigma_recorded
  = Raise ZeroDivisionError /\
  calculate_cross_entropy Norm.Phi data mu_recorded sigma_recorded
  <> Raise ZeroDivisionError.
Proof.
  destruct (calculate_cross_entropy_empty Norm.Phi mu_recorded sigma_recorded)
    as [Hnil Hcons].
  split; [exact Hnil | apply Hcons].
Defined.

Lemma calculate_cross_entropy_of_terms
    (norm_cdf : R -> R) (records : list comparison)
    (mu sigma : gmap string R) :
  records <> [] ->
  (forall X, X ∈ option_items records ->
     is_Some (mu !! X) /\ exists s, sigma !! X = Some s /\ 0 < s) ->
  (forall r p, r ∈ records ->
     record_probability norm_cdf mu sigma r = Some p -> 0 < p < 1) ->
  exists terms,
    mapM (record_cross_entropy norm_cdf mu sigma) records = Some terms /\
    calculate_cross_entropy norm_cdf records mu sigma
    = Ok (Fin (Rsum terms / INR (length records))).
Proof.
  intros Hne Hkeys Hprob.
  destruct (cross_entropy_loop_finite norm_cdf mu sigma records Hkeys Hprob
              (PyInt 0) 0 eq_refl) as (terms & v & Hterms & Hloop & Hval).
  exists terms. split; [exact Hterms |].
  unfold calculate_cross_entropy. rewrite Hloop. cbn [mbind result_bind].
  pose proof (cross_entropy_loop_outcome norm_cdf mu sigma records (PyInt 0))
    as Hout.
  rewrite Hloop in Hout. destruct Hout as [[Hnil _] | [x ->]]; [done |].
  simpl in Hval. subst x. unfold py_truediv. rewrite div_finite.
  - by rewrite Rplus_0_l.
  - apply not_0_INR. by destruct records.
Qed.




(** ** The estimator *)

Lemma clip_in_bounds x b : fst b <= snd b -> fst b <= clip x b <= snd b.
Proof.
  intros Hb. unfold clip. split; [apply Rmax_l |].
  apply Rmax_lub; [exact Hb | apply Rmin_r].
Qed.

Lemma minimize_initial_point_respects_bounds :
  respects_bounds minimize_initial_point.
Proof.
  intros f x0 bounds g res g'. unfold minimize_initial_point.
  case_decide as Hd; [| discriminate]. destruct Hd as [Hlen Hb].
  intros Hrun. apply bind_Ok in Hrun as (out & _ & [= <- _]). simpl.
  clear f g g' out. revert x0 Hlen.
  induction Hb as [| b bounds Hb _ IH]; intros [| x x0] Hlen;
    try discriminate; simpl; constructor.
  - by apply clip_in_bounds.
  - apply IH. simpl in Hlen. lia.
Qed.

Lemma tabulate_rows opts mu_estimates sigma_estimates :
  forall i rows,
    tabulate i opts mu_estimates sigma_estimates = Ok rows ->
    rows.*1 = opts /\
    Forall (fun row => row.2.1 ∈ mu_estimates /\ row.2.2 ∈ sigma_estimates)
      rows.
Proof.
  induction opts as [| opt rest IH]; intros i rows; simpl.
  - intros [= <-]. split; [reflexivity | constructor].
  - unfold list_getitem.
    destruct (mu_estimates !! i) as [m |] eqn:Hm; [| discriminate].
    destruct (sigma_estimates !! i) as [s |] eqn:Hs; [| discriminate].
    cbn [mbind result_bind].
    destruct (tabulate (S i) rest mu_estimates sigma_estimates)
      as [rows' |] eqn:Hrows; [| discriminate].
    intros [= <-]. destruct (IH _ _ Hrows) as [Hkeys Hall].
    split; [rewrite fmap_cons; f_equal; exact Hkeys |].
    constructor; [| exact Hall]. simpl.
    split; by eapply list_elem_of_lookup_2.
Qed.

Lemma tabulate_total opts mu_estimates sigma_estimates :
  forall i,
    (i + length opts <= length mu_estimates)%nat ->
    (i + length opts <= length sigma_estimates)%nat ->
    exists rows, tabulate i opts mu_estimates sigma_estimates = Ok rows.
Proof.
  induction opts as [| opt rest IH]; intros i Hm Hs; simpl in *; [eauto |].
  destruct (lookup_lt_is_Some_2 mu_estimates i) as [m Hi]; [lia |].
  destruct (lookup_lt_is_Some_2 sigma_estimates i) as [s Hi']; [lia |].
  destruct (IH (S i)) as [rows Hrows]; [lia | lia |].
  unfold list_getitem. rewrite Hi, Hi'. cbn [mbind result_bind].
  rewrite Hrows. eauto.
Qed.

Lemma size_option_set_nil : size (option_set []) = 0%nat.
Proof. reflexivity. Qed.

Section Fit.

Variable norm_cdf : R -> R.
Variable list_of_set : gset string -> list string.
Variable minimize :
  objective -> list R -> list (R * R) -> globals ->
  result (OptimizeResult * globals).

Lemma fit_unfold_enough records :
  (2 <= length (options_of list_of_set records))%nat ->
  fit norm_cdf list_of_set minimize records =
  let options := options_of list_of_set records in
  let g0 := Globals (dict_of_keys 0 options) (dict_of_keys 1 options) in
  let n := length options in
  out ← minimize (neg_log_likelihood norm_cdf options records)
        (replicate n 0 ++ replicate n 0)
        (replicate n (-10, 10) ++ replicate n (-10, 2)) g0;
  rows ← tabulate 0 options (take n (res_x (fst out)))
         (exp <$> drop n (res_x (fst out)));
  mret {| parameters := rows;
          log_likelihood := Np.neg (res_fun (fst out));
          converged := res_success (fst out) |}.
Proof.
  intros Hn. unfold fit.
  destruct (Nat.ltb_spec (length (options_of list_of_set records)) 2);
    [lia | reflexivity].
Qed.

Lemma fit_few_options records :
  (length (options_of list_of_set records) < 2)%nat ->
  fit norm_cdf list_of_set minimize records =
  Raise (ValueError "Insufficient unique options in the data").
Proof.
  intros Hn. unfold fit.
  destruct (Nat.ltb_spec (length (options_of list_of_set records)) 2);
    [reflexivity | lia].
Qed.

End Fit.

Lemma Forall2_replicate_inv {A B : Type} (P : A -> B -> Prop) l n y :
  Forall2 P l (replicate n y) -> Forall (fun v => P v y) l.
Proof.
  revert n. induction l as [| v l IH]; intros [| n] H; simpl in H;
    inversion H; subst; constructor; eauto.
Qed.

Lemma in_box_split (x : list R) n (b1 b2 : R * R) :
  Forall2 (fun v b => fst b <= v <= snd b) x
    (replicate n b1 ++ replicate n b2) ->
  length x = (n + n)%nat /\
  Forall (fun v => fst b1 <= v <= snd b1) (take n x) /\
  Forall (fun v => fst b2 <= v <= snd b2) (drop n x).
Proof.
  intros H. apply Forall2_app_inv_r in H as (x1 & x2 & H1 & H2 & ->).
  pose proof (Forall2_length _ _ _ H1) as L1.
  pose proof (Forall2_length _ _ _ H2) as L2.
  rewrite length_replicate in L1, L2.
  rewrite length_app, take_app_length', drop_app_length' by done.
  split; [lia |].
  split; [exact (Forall2_replicate_inv _ _ _ _ H1)
         | exact (Forall2_replicate_inv _ _ _ _ H2)].
Qed.

(** C5. The empty list, and any list with fewer than two distinct options
    in the first two positions of its records, is rejected with the
    insufficient-options [ValueError]; the optimizer plays no part in the
    outcome. *)
Theorem fit_rejects_insufficient_options
    (norm_cdf : R -> R) (list_of_set : gset string -> list string)
    (minimize : objective -> list R -> list (R * R) -> globals ->
                result (OptimizeResult * globals)) :
  set_listing list_of_set ->
  fit norm_cdf list_of_set minimize []
  = Raise (ValueError "Insufficient unique options in the data") /\
  (forall records,
     (size (option_set records) < 2)%nat ->
     fit norm_cdf list_of_set minimize records
     = Raise (ValueError "Insufficient unique options in the data")).
Proof.
  intros Hset.
  assert (Hfew : forall records,
            (size (option_set records) < 2)%nat ->
            fit norm_cdf list_of_set minimize records
            = Raise (ValueError "Insufficient unique options in the data")).
  { intros records Hsize. apply fit_few_options.
    by rewrite options_of_length. }
  split; [| exact Hfew].
  apply Hfew. rewrite size_option_set_nil. lia.
Qed.

Lemma fit_rejects_insufficient_options_witness :
  fit Norm.Phi elements minimize_initial_point []
  = Raise (ValueError "Insufficient unique options in the data") /\
  fit Norm.Phi elements minimize_initial_point [("A", "A", "A")]
  = Raise (ValueError "Insufficient unique options in the data").
Proof.
  destruct (fit_rejects_insufficient_options Norm.Phi elements
              minimize_initial_point elements_listing) as [Hnil Hfew].
  split; [exact Hnil |].
  apply Hfew. vm_compute. lia.
Defined.

(** C6. When the optimizer returns a point of its box, every row of the
    fitted table has its mean in [[−10, 10]] and a positive deviation in
    [[e^−10, e^2]], and the table has one row per option. *)
Theorem fit_parameters_within_bounds
    (norm_cdf : R -> R) (list_of_set : gset string -> list string)
    (minimize : objective -> list R -> list (R * R) -> globals ->
                result (OptimizeResult * globals))
    (records : list comparison) (est : estimates) :
  respects_bounds minimize ->
  fit norm_cdf list_of_set minimize records = Ok est ->
  (parameters est).*1 = options_of list_of_set records /\
  Forall (fun row =>
            -10 <= row.2.1 <= 10 /\
            0 < row.2.2 /\
            exp (-10) <= row.2.2 <= exp 2)
    (parameters est).
Proof.
  intros Hbox Hfit.
  destruct (Nat.lt_ge_cases (length (options_of list_of_set records)) 2)
    as [Hfew | Hmany].
  { by rewrite fit_few_options in Hfit. }
  rewrite fit_unfold_enough in Hfit by exact Hmany. cbv zeta in Hfit.
  apply bind_Ok in Hfit as ([res g'] & Hmin & Hfit).
  apply bind_Ok in Hfit as (rows & Hrows & [= <-]). simpl in *.
  apply Hbox, in_box_split in Hmin as (_ & Hmu & Hsigma).
  apply tabulate_rows in Hrows as [Hkeys Hall].
  split; [exact Hkeys |].
  rewrite Forall_forall in Hmu, Hsigma.
  eapply Forall_impl; [exact Hall |].
  intros [opt [m s]] [Hm Hs]. simpl in *.
  split; [by apply Hmu |].
  apply list_elem_of_fmap in Hs as (ls & -> & Hls).
  apply Hsigma in Hls. simpl in Hls.
  split; [apply exp_pos |].
  destruct Hls as [[Hlo | <-] [Hhi | ->]]; split;
    try apply Rle_refl; left; by apply exp_increasing.
Qed.

(** With at least two options, a run of the estimator whose optimizer stops
    at the start point goes through: the objective is defined there and the
    table can be printed. *)
Lemma fit_initial_point_returns norm_cdf list_of_set records :
  set_listing list_of_set ->
  (2 <= size (option_set records))%nat ->
  exists est,
    fit norm_cdf list_of_set minimize_initial_point records = Ok est.
Proof.
  intros Hset Hsize.
  pose proof (options_of_length list_of_set Hset records) as Hlen.
  rewrite fit_unfold_enough by lia. cbv zeta.
  set (options := options_of list_of_set records) in *.
  set (n := length options) in *.
  set (bounds := replicate n (-10, 10) ++ replicate n (-10, 2)).
  set (x0 := replicate n 0 ++ replicate n 0).
  assert (Hx0 : length x0 = (n + n)%nat).
  { unfold x0. by rewrite length_app, !length_replicate. }
  assert (Hb : length bounds = (n + n)%nat).
  { unfold bounds. by rewrite length_app, !length_replicate. }
  unfold minimize_initial_point. case_decide as Hd.
  - set (x := zip_with clip x0 bounds).
    assert (Hx : length x = (n + n)%nat).
    { unfold x. rewrite length_zip_with. lia. }
    destruct (neg_log_likelihood_refines norm_cdf options records x
                (Globals (dict_of_keys 0 options) (dict_of_keys 1 options)))
      as (v & g' & Hrun & _).
    + by apply options_of_NoDup.
    + intros y Hy. by apply options_of_elem.
    + fold n. lia.
    + rewrite Hrun. cbn [mbind result_bind mret result_ret fst snd res_x].
      destruct (tabulate_total options (take n x) (exp <$> drop n x) 0)
        as [rows Hrows].
      * rewrite length_take. fold n. lia.
      * rewrite length_fmap, length_drop. fold n. lia.
      * rewrite Hrows. eauto.
  - exfalso. apply Hd. split; [lia |].
    unfold bounds. apply Forall_app. split; apply Forall_replicate; simpl; lra.
Qed.

Lemma fit_parameters_within_bounds_witness :
  exists est,
    fit Norm.Phi elements minimize_initial_point data = Ok est /\
    (parameters est).*1 = options_of elements data /\
    Forall (fun row =>
              -10 <= row.2.1 <= 10 /\
              0 < row.2.2 /\
              exp (-10) <= row.2.2 <= exp 2)
      (parameters est).
Proof.
  destruct (fit_initial_point_returns Norm.Phi elements data elements_listing)
    as [est Hest].
  - rewrite size_option_set_data. lia.
  - exists est. split; [exact Hest |].
    exact (fit_parameters_within_bounds Norm.Phi elements
             minimize_initial_point data est
             minimize_initial_point_respects_bounds Hest).
Defined.

(** ** Records whose choice is neither option *)

Section ChoiceTest.

Variable norm_cdf : R -> R.

Lemma record_log_likelihood_choice_test g r r' :
  same_choice_test r r' ->
  record_log_likelihood norm_cdf g r = record_log_likelihood norm_cdf g r'.
Proof.
  destruct r as [[A B] chosen], r' as [[A' B'] chosen'].
  intros (<- & <- & Hiff). unfold record_log_likelihood.
  destruct (decide (chosen = A)) as [Hc | Hc],
           (decide (chosen' = A)) as [Hc' | Hc']; tauto || reflexivity.
Qed.

Lemma accumulate_likelihood_choice_test g records records' :
  Forall2 same_choice_test records records' ->
  forall likelihood,
    accumulate_likelihood norm_cdf g records likelihood
    = accumulate_likelihood norm_cdf g records' likelihood.
Proof.
  induction 1 as [| r r' records records' Hr _ IH]; intros likelihood;
    [reflexivity |].
  cbn [accumulate_likelihood].
  rewrite (record_log_likelihood_choice_test g r r' Hr).
  destruct (record_log_likelihood norm_cdf g r') as [l | e];
    cbn [mbind result_bind]; [apply IH | reflexivity].
Qed.

Lemma neg_log_likelihood_choice_test options records records' :
  Forall2 same_choice_test records records' ->
  neg_log_likelihood norm_cdf options records
  = neg_log_likelihood norm_cdf options records'.
Proof.
  intros Hrec. unfold neg_log_likelihood.
  apply functional_extensionality; intros params.
  apply functional_extensionality; intros g.
  destruct (unpack_params (length options) params 0 options g) as [g' | e];
    cbn [mbind result_bind]; [| reflexivity].
  by rewrite (accumulate_likelihood_choice_test g' records records' Hrec).
Qed.

Lemma option_items_choice_test records records' :
  Forall2 same_choice_test records records' ->
  option_items records = option_items records'.
Proof.
  induction 1 as [| [[A B] c] [[A' B'] c'] records records' Hr _ IH];
    [reflexivity |].
  destruct Hr as (<- & <- & _). simpl. by rewrite IH.
Qed.

End ChoiceTest.

(** C2, as the code has it. No record is rejected for its [chosen] value:
    the objective only tests [chosen == A], so a record whose choice is
    neither option is scored as any record with the same [A] and [B] whose
    choice is not [A], and the whole fit is the same as for the list with
    such records replaced. *)
Theorem fit_ignores_choice_beyond_test
    (norm_cdf : R -> R) (list_of_set : gset string -> list string)
    (minimize : objective -> list R -> list (R * R) -> globals ->
                result (OptimizeResult * globals))
    (records records' : list comparison) :
  Forall2 same_choice_test records records' ->
  (forall options params g,
     neg_log_likelihood norm_cdf options records params g
     = neg_log_likelihood norm_cdf options records' params g) /\
  fit norm_cdf list_of_set minimize records
  = fit norm_cdf list_of_set minimize records'.
Proof.
  intros Hrec. split.
  - intros options params g.
    by rewrite (neg_log_likelihood_choice_test norm_cdf options _ _ Hrec).
  - unfold fit, options_of, option_set.
    rewrite (option_items_choice_test _ _ Hrec).
    by rewrite (neg_log_likelihood_choice_test norm_cdf _ _ _ Hrec).
Qed.

Lemma fit_ignores_choice_beyond_test_witness :
  (forall options params g,
     neg_log_likelihood Norm.Phi options [("A", "B", "C")] params g
     = neg_log_likelihood Norm.Phi options [("A", "B", "B")] params g) /\
  fit Norm.Phi elements minimize_initial_point [("A", "B", "C")]
  = fit Norm.Phi elements minimize_initial_point [("A", "B", "B")].
Proof.
  apply fit_ignores_choice_beyond_test.
  constructor; [| constructor].
  split; [reflexivity |]. split; [reflexivity |].
  split; discriminate.
Defined.

(** C2, as the specification has it, fails: the list [[("A", "B", "C")]]
    has two options and passes the only check, the objective returns a
    value at every vector of length four, and the estimator returns a
    table. *)
Lemma fit_accepts_malformed_record :
  length (options_of elements [("A", "B", "C")]) = 2%nat /\
  (forall params g,
     length params = 4%nat ->
     exists v g',
       neg_log_likelihood Norm.Phi (options_of elements [("A", "B", "C")])
         [("A", "B", "C")] params g = Ok (v, g')) /\
  exists est,
    fit Norm.Phi elements minimize_initial_point [("A", "B", "C")] = Ok est.
Proof.
  assert (Hsize : size (option_set [("A", "B", "C")]) = 2%nat)
    by (vm_compute; reflexivity).
  pose proof (options_of_length elements elements_listing [("A", "B", "C")])
    as Hlen.
  split; [by rewrite Hlen |]. split.
  - intros params g Hparams.
    destruct (neg_log_likelihood_refines Norm.Phi
                (options_of elements [("A", "B", "C")]) [("A", "B", "C")]
                params g) as (v & g' & Hrun & _).
    + apply options_of_NoDup, elements_listing.
    + intros x Hx. by apply options_of_elem; [apply elements_listing |].
    + rewrite Hlen, Hsize. exact Hparams.
    + eauto.
  - apply fit_initial_point_returns; [exact elements_listing |].
    rewrite Hsize. lia.
Qed.

(** ** The order of the options *)

Lemma option_set_data_elem x :
  x ∈ option_set data <-> x = "A"%string \/ x = "B"%string \/ x = "C"%string.
Proof.
  unfold option_set. rewrite elem_of_list_to_set. simpl.
  rewrite !elem_of_cons, elem_of_nil. tauto.
Qed.

Lemma listing_of_option_set_data l :
  NoDup l ->
  (forall x, x ∈ l <-> x = "A"%string \/ x = "B"%string \/ x = "C"%string) ->
  l ≡ₚ elements (option_set data).
Proof.
  intros Hnd Hl. apply NoDup_Permutation; [exact Hnd | apply NoDup_elements |].
  intros x. by rewrite elem_of_elements, option_set_data_elem.
Qed.

(** A literal list of the three options, in any order, lists the option
    set of the worked example. *)
Ltac literal_listing :=
  apply listing_of_option_set_data;
  [ repeat constructor; rewrite ?elem_of_cons, ?elem_of_nil;
    let H := fresh in intros H; repeat destruct H as [H | H]; done
  | let x := fresh in
    intros x; rewrite !elem_of_cons, elem_of_nil; tauto ].

Lemma iterate_sorted_listing : set_listing iterate_sorted.
Proof.
  intros s. unfold iterate_sorted.
  case_decide as Hs; [subst s; literal_listing | reflexivity].
Qed.

Lemma iterate_recorded_listing : set_listing iterate_recorded.
Proof.
  intros s. unfold iterate_recorded.
  case_decide as Hs; [subst s; literal_listing | reflexivity].
Qed.

Lemma options_of_iterate_sorted :
  options_of iterate_sorted data = ["A"; "B"; "C"]%string.
Proof. unfold options_of, iterate_sorted. by case_decide. Qed.

Lemma options_of_iterate_recorded :
  options_of iterate_recorded data = ["A"; "C"; "B"]%string.
Proof. unfold options_of, iterate_recorded. by case_decide. Qed.

(** C4, as the specification has it, fails: the order in which the options
    are listed is the iteration order of a [set]; the sorted order and the
    order of the recorded run are both possible, and they put [B] at
    different positions of the parameter vector. *)
Lemma options_order_not_canonical :
  set_listing iterate_sorted /\ set_listing iterate_recorded /\
  options_of iterate_sorted data = ["A"; "B"; "C"]%string /\
  options_of iterate_recorded data = ["A"; "C"; "B"]%string /\
  index_of "B" (options_of iterate_sorted data) = Some 1%nat /\
  index_of "B" (options_of iterate_recorded data) = Some 2%nat.
Proof.
  split; [exact iterate_sorted_listing |].
  split; [exact iterate_recorded_listing |].
  rewrite options_of_iterate_sorted, options_of_iterate_recorded.
  repeat split; reflexivity.
Qed.

Lemma unpack_params_order options1 options2 params1 params2 g :
  NoDup options1 -> NoDup options2 ->
  options1 ≡ₚ options2 ->
  length params1 = (2 * length options1)%nat ->
  length params2 = (2 * length options2)%nat ->
  (forall opt,
     spec_mu options1 params1 opt = spec_mu options2 params2 opt /\
     spec_sigma options1 params1 opt = spec_sigma options2 params2 opt) ->
  unpack_params (length options1) params1 0 options1 g
  = unpack_params (length options2) params2 0 options2 g.
Proof.
  intros Hnd1 Hnd2 Hperm Hlen1 Hlen2 Hsame.
  destruct (unpack_params_lookup (length options1) params1 options1 0 g)
    as (g1 & -> & Hmu1 & Hsigma1); [done | lia | lia |].
  destruct (unpack_params_lookup (length options2) params2 options2 0 g)
    as (g2 & -> & Hmu2 & Hsigma2); [done | lia | lia |].
  f_equal. destruct g1 as [m1 s1], g2 as [m2 s2]. simpl in *.
  assert (Hnone : forall k, index_of k options1 = None <->
                            index_of k options2 = None).
  { intros k. rewrite !index_of_None. by rewrite Hperm. }
  f_equal; apply map_eq; intros k;
    [rewrite Hmu1, Hmu2 | rewrite Hsigma1, Hsigma2];
    destruct (Hsame k) as [Hm Hs]; unfold spec_mu, spec_sigma in Hm, Hs;
    specialize (Hnone k);
    destruct (index_of k options1) as [j1 |],
             (index_of k options2) as [j2 |]; simpl in *;
    try (by destruct Hnone as [Ha Hb]; (discriminate (Ha eq_refl)
                                        || discriminate (Hb eq_refl)));
    try reflexivity; try exact Hm.
  replace (j1 + length options1)%nat with (length options1 + j1)%nat by lia.
  replace (j2 + length options2)%nat with (length options2 + j2)%nat by lia.
  exact Hs.
Qed.

(** C4, as the code has it. Every run lists each distinct option exactly
    once, so all runs agree on [n] and on the options, but not on their
    order.  The order matters only through the indexing: two parameter
    vectors of length [2·n] that give every option the same mean and the
    same deviation, each under the order of its own run, make the
    objective return the same value and leave the same dicts. *)
Theorem objective_independent_of_option_order
    (norm_cdf : R -> R) (list_of_set1 list_of_set2 : gset string -> list string)
    (records : list comparison) (params1 params2 : list R) (g : globals) :
  set_listing list_of_set1 -> set_listing list_of_set2 ->
  length params1 = (2 * size (option_set records))%nat ->
  length params2 = (2 * size (option_set records))%nat ->
  (forall opt,
     spec_mu (options_of list_of_set1 records) params1 opt
     = spec_mu (options_of list_of_set2 records) params2 opt /\
     spec_sigma (options_of list_of_set1 records) params1 opt
     = spec_sigma (options_of list_of_set2 records) params2 opt) ->
  options_of list_of_set1 records ≡ₚ options_of list_of_set2 records /\
  neg_log_likelihood norm_cdf (options_of list_of_set1 records) records
    params1 g
  = neg_log_likelihood norm_cdf (options_of list_of_set2 records) records
      params2 g.
Proof.
  intros Hset1 Hset2 Hlen1 Hlen2 Hsame.
  assert (Hperm : options_of list_of_set1 records
                  ≡ₚ options_of list_of_set2 records).
  { unfold options_of. by rewrite (Hset1 _), (Hset2 _). }
  split; [exact Hperm |].
  unfold neg_log_likelihood.
  rewrite (unpack_params_order _ (options_of list_of_set2 records)
             params1 params2 g); try done.
  - by apply options_of_NoDup.
  - by apply options_of_NoDup.
  - by rewrite options_of_length.
  - by rewrite options_of_length.
Qed.

Lemma objective_independent_of_option_order_witness :
  options_of iterate_sorted data ≡ₚ options_of iterate_recorded data /\
  neg_log_likelihood Norm.Phi (options_of iterate_sorted data) data
    [1; 2; 3; 0; 0; 0] (Globals ∅ ∅)
  = neg_log_likelihood Norm.Phi (options_of iterate_recorded data) data
      [1; 3; 2; 0; 0; 0] (Globals ∅ ∅).
Proof.
  apply objective_independent_of_option_order.
  - exact iterate_sorted_listing.
  - exact iterate_recorded_listing.
  - rewrite size_option_set_data. reflexivity.
  - rewrite size_option_set_data. reflexivity.
  - rewrite options_of_iterate_sorted, options_of_iterate_recorded.
    intros opt. unfold spec_mu, spec_sigma. simpl.
    repeat case_decide; subst; simpl; split; (reflexivity || discriminate).
Defined.

(** ** The recorded run *)

Lemma quotient_between d x lo hi :
  0 < d -> 0 < lo -> lo * lo <= x -> x <= hi * hi -> 0 <= hi ->
  d / hi <= d / sqrt x <= d / lo.
Proof.
  intros Hd Hlo Hx1 Hx2 Hhi.
  destruct (NormFacts.sqrt_between x lo hi) as [H1 H2]; try lra.
  unfold Rdiv. split; apply Rmult_le_compat_l; try lra;
    apply Rinv_le_contravar; lra.
Qed.

Lemma probability_reflect mX mY sX sY :
  spec_probability Norm.Phi mX mY sX sY
  = 1 - spec_probability Norm.Phi mY mX sY sX.
Proof.
  unfold spec_probability. rewrite <- NormFacts.Phi_reflect. f_equal.
  replace (sY ^ 2 + sX ^ 2) with (sX ^ 2 + sY ^ 2) by lra.
  unfold Rdiv. lra.
Qed.

Lemma p_BA_bounds : 68 / 100 <= p_BA <= 78 / 100.
Proof.
  unfold p_BA, spec_probability.
  destruct (quotient_between (57 / 100 - -57 / 100)
              ((12 / 10) ^ 2 + (12 / 10) ^ 2) (1689 / 1000) (1701 / 1000))
    as [H1 H2]; try lra.
  destruct (NormFacts.Phi_window
              ((57 / 100 - -57 / 100) / sqrt ((12 / 10) ^ 2 + (12 / 10) ^ 2))
              (67 / 100) (675 / 1000)) as [Hl Hu]; lra.
Qed.

Lemma p_CA_bounds : 63 / 100 <= p_CA <= 68 / 100.
Proof.
  unfold p_CA, spec_probability.
  destruct (quotient_between (0 - -57 / 100)
              ((57 / 100) ^ 2 + (12 / 10) ^ 2) (132 / 100) (1331 / 1000))
    as [H1 H2]; try lra.
  destruct (NormFacts.Phi_window
              ((0 - -57 / 100) / sqrt ((57 / 100) ^ 2 + (12 / 10) ^ 2))
              (428 / 1000) (432 / 1000)) as [Hl Hu]; lra.
Qed.

Lemma p_BC_bounds : 63 / 100 <= p_BC <= 68 / 100.
Proof.
  unfold p_BC, spec_probability.
  destruct (quotient_between (57 / 100 - 0)
              ((12 / 10) ^ 2 + (57 / 100) ^ 2) (132 / 100) (1331 / 1000))
    as [H1 H2]; try lra.
  destruct (NormFacts.Phi_window
              ((57 / 100 - 0) / sqrt ((12 / 10) ^ 2 + (57 / 100) ^ 2))
              (428 / 1000) (432 / 1000)) as [Hl Hu]; lra.
Qed.

Lemma binary_cross_entropy_1 p : binary_cross_entropy p 1 = - ln p.
Proof. unfold binary_cross_entropy. lra. Qed.

Lemma binary_cross_entropy_0 p : binary_cross_entropy p 0 = - ln (1 - p).
Proof. unfold binary_cross_entropy. lra. Qed.

Lemma ln_lower lo x : 0 < lo -> lo <= x -> x < 1 -> 0 < - ln x <= - ln lo.
Proof.
  intros Hlo Hx H1. split.
  - pose proof (ln_increasing x 1 ltac:(lra) H1) as H. rewrite ln_1 in H. lra.
  - destruct Hx as [Hx | <-]; [| lra].
    pose proof (ln_increasing lo x Hlo Hx). lra.
Qed.

Lemma recorded_terms :
  mapM (record_cross_entropy Norm.Phi mu_recorded sigma_recorded) data
  = Some
      [ binary_cross_entropy p_BA 1;
        binary_cross_entropy
          (spec_probability Norm.Phi (-57 / 100) 0 (12 / 10) (57 / 100)) 0;
        binary_cross_entropy p_BC 1;
        binary_cross_entropy
          (spec_probability Norm.Phi (-57 / 100) (57 / 100) (12 / 10)
             (12 / 10)) 1;
        binary_cross_entropy p_CA 1;
        binary_cross_entropy
          (spec_probability Norm.Phi 0 (57 / 100) (57 / 100) (12 / 10)) 0;
        binary_cross_entropy p_BA 1;
        binary_cross_entropy
          (spec_probability Norm.Phi (-57 / 100) 0 (12 / 10) (57 / 100)) 1;
        binary_cross_entropy
          (spec_probability Norm.Phi 0 (57 / 100) (57 / 100) (12 / 10)) 1;
        binary_cross_entropy
          (spec_probability Norm.Phi (-57 / 100) (57 / 100) (12 / 10)
             (12 / 10)) 0 ].
Proof. reflexivity. Qed.

Lemma recorded_sum_bounds :
  0 < - ln p_BA + (- ln p_CA + (- ln p_BC + (- ln (1 - p_BA) + (- ln p_CA +
      (- ln p_BC + (- ln p_BA + (- ln (1 - p_CA) + (- ln (1 - p_BC) +
      (- ln p_BA + 0)))))))))
    < 10 * ln 2.
Proof.
  pose proof p_BA_bounds as HP. pose proof p_CA_bounds as HC.
  pose proof p_BC_bounds as HB.
  pose proof (ln_lower (68 / 100) p_BA ltac:(lra) ltac:(lra) ltac:(lra)) as H1.
  pose proof (ln_lower (22 / 100) (1 - p_BA) ltac:(lra) ltac:(lra) ltac:(lra))
    as H2.
  pose proof (ln_lower (63 / 100) p_CA ltac:(lra) ltac:(lra) ltac:(lra)) as H3.
  pose proof (ln_lower (32 / 100) (1 - p_CA) ltac:(lra) ltac:(lra) ltac:(lra))
    as H4.
  pose proof (ln_lower (63 / 100) p_BC ltac:(lra) ltac:(lra) ltac:(lra)) as H5.
  pose proof (ln_lower (32 / 100) (1 - p_BC) ltac:(lra) ltac:(lra) ltac:(lra))
    as H6.
  split; [lra |].
  assert (Hconst : - (10 * ln 2)
                   < 3 * ln (68 / 100) + ln (22 / 100)
                     + 4 * ln (63 / 100) + 2 * ln (32 / 100)); [| lra].
  replace (- (10 * ln 2)) with (ln (/ 2 ^ 10)).
  2:{ rewrite ln_Rinv by (apply pow_lt; lra). rewrite ln_pow by lra.
      simpl INR. lra. }
  replace (3 * ln (68 / 100)) with (ln ((68 / 100) ^ 3))
    by (rewrite ln_pow by lra; simpl INR; lra).
  replace (4 * ln (63 / 100)) with (ln ((63 / 100) ^ 4))
    by (rewrite ln_pow by lra; simpl INR; lra).
  replace (2 * ln (32 / 100)) with (ln ((32 / 100) ^ 2))
    by (rewrite ln_pow by lra; simpl INR; lra).
  rewrite <- !ln_mult by lra.
  apply ln_increasing; lra.
Qed.

(** The last code cell on the worked example: under the parameters the
    notebook records as fitted, the means are ordered B > C > A and the
    cross-entropy lies strictly between 0 and [ln 2]. *)
Lemma recorded_parameters_scenario :
  (exists m_A m_B m_C,
     mu_recorded !! "A" = Some m_A /\ mu_recorded !! "B" = Some m_B /\
     mu_recorded !! "C" = Some m_C /\ m_A < m_C < m_B) /\
  exists ce,
    calculate_cross_entropy Norm.Phi data mu_recorded sigma_recorded
    = Ok (Fin ce) /\
    0 < ce < ln 2.
Proof.
  split.
  { exists (-57 / 100), (57 / 100), 0. repeat split; try reflexivity; lra. }
  pose proof p_BA_bounds as HP. pose proof p_CA_bounds as HC.
  pose proof p_BC_bounds as HB.
  pose proof (probability_reflect (-57 / 100) 0 (12 / 10) (57 / 100)) as RAC.
  pose proof (probability_reflect (-57 / 100) (57 / 100) (12 / 10) (12 / 10))
    as RAB.
  pose proof (probability_reflect 0 (57 / 100) (57 / 100) (12 / 10)) as RCB.
  fold p_CA in RAC. fold p_BA in RAB. fold p_BC in RCB.
  destruct (calculate_cross_entropy_of_terms Norm.Phi data mu_recorded
              sigma_recorded) as (terms & Hterms & Hrun).
  - discriminate.
  - intros X HX. simpl in HX. rewrite !elem_of_cons, elem_of_nil in HX.
    assert (HX' : X = "A"%string \/ X = "B"%string \/ X = "C"%string)
      by tauto.
    destruct HX' as [-> | [-> | ->]];
      (split; [by eexists | eexists; split; [reflexivity | lra]]).
  - intros r p Hr. unfold data in Hr.
    rewrite !elem_of_cons, elem_of_nil in Hr.
    assert (LmA : mu_recorded !! "A" = Some (-57 / 100)) by reflexivity.
    assert (LmB : mu_recorded !! "B" = Some (57 / 100)) by reflexivity.
    assert (LmC : mu_recorded !! "C" = Some 0) by reflexivity.
    assert (LsA : sigma_recorded !! "A" = Some (12 / 10)) by reflexivity.
    assert (LsB : sigma_recorded !! "B" = Some (12 / 10)) by reflexivity.
    assert (LsC : sigma_recorded !! "C" = Some (57 / 100)) by reflexivity.
    repeat (destruct Hr as [-> | Hr]); try done;
      unfold record_probability;
      rewrite ?LmA, ?LmB, ?LmC, ?LsA, ?LsB, ?LsC;
      cbn [mbind option_bind]; intros Hp; apply (inj Some) in Hp; subst p;
      fold p_BA p_CA p_BC; rewrite ?RAC, ?RAB, ?RCB; lra.
  - rewrite recorded_terms in Hterms. apply (inj Some) in Hterms. subst terms.
    eexists. split; [exact Hrun |].
    simpl Rsum. simpl length.
    rewrite !binary_cross_entropy_1, !binary_cross_entropy_0.
    rewrite RAC, RAB, RCB.
    replace (1 - (1 - p_CA)) with p_CA by lra.
    replace (1 - (1 - p_BC)) with p_BC by lra.
    replace (1 - (1 - p_BA)) with p_BA by lra.
    pose proof recorded_sum_bounds as Hsum.
    replace (INR 10) with 10 by (simpl; lra).
    lra.
Qed.

(** * Further properties of the notebook's code *)

Lemma Ok_inj {A : Type} (a b : A) : Ok a = Ok b -> a = b.
Proof. congruence. Qed.

(** ** Pairwise probability: scale, shift and degenerate deviations *)

Lemma signed_inf_scale k d : 0 < k -> Np.signed_inf (k * d) = Np.signed_inf d.
Proof.
  intros Hk. unfold Np.signed_inf.
  destruct (Rlt_dec 0 (k * d)), (Rlt_dec 0 d); try reflexivity; try nra.
  destruct (Rlt_dec (k * d) 0), (Rlt_dec d 0); try reflexivity; nra.
Qed.

Lemma sqrt_sum_squares_scale k a b :
  0 <= k -> sqrt ((k * a) ^ 2 + (k * b) ^ 2) = k * sqrt (a ^ 2 + b ^ 2).
Proof.
  intros Hk.
  replace ((k * a) ^ 2 + (k * b) ^ 2) with (k ^ 2 * (a ^ 2 + b ^ 2)) by ring.
  rewrite sqrt_mult by nra. rewrite sqrt_pow2 by exact Hk. reflexivity.
Qed.

Lemma pairwise_prob_affine
    (norm_cdf : R -> R) (k c mu_X mu_Y sigma_X sigma_Y : R) :
  0 < k ->
  calculate_pairwise_prob norm_cdf (k * mu_X + c) (k * mu_Y + c)
    (k * sigma_X) (k * sigma_Y)
  = calculate_pairwise_prob norm_cdf mu_X mu_Y sigma_X sigma_Y.
Proof.
  intros Hk. unfold calculate_pairwise_prob. f_equal.
  rewrite sqrt_sum_squares_scale by lra.
  replace (k * mu_X + c - (k * mu_Y + c)) with (k * (mu_X - mu_Y)) by ring.
  set (s := sqrt (sigma_X ^ 2 + sigma_Y ^ 2)).
  cbn [Np.div].
  destruct (Req_dec_T s 0) as [Hs | Hs].
  - destruct (Req_dec_T (k * s) 0) as [_ | Hn]; [| nra].
    by apply signed_inf_scale.
  - destruct (Req_dec_T (k * s) 0) as [Hz | _]; [nra |].
    f_equal. field. split; lra.
Qed.

(** X1. The probability depends on the parameters only up to a common
    shift of the two means and a common positive rescaling of means and
    deviations, whatever [norm.cdf] is and also when both deviations are
    zero. *)
Theorem calculate_pairwise_prob_shift_scale
    (norm_cdf : R -> R) (mu_X mu_Y sigma_X sigma_Y : R) :
  (forall c,
     calculate_pairwise_prob norm_cdf (mu_X + c) (mu_Y + c) sigma_X sigma_Y
     = calculate_pairwise_prob norm_cdf mu_X mu_Y sigma_X sigma_Y) /\
  (forall k, 0 < k ->
     calculate_pairwise_prob norm_cdf (k * mu_X) (k * mu_Y)
       (k * sigma_X) (k * sigma_Y)
     = calculate_pairwise_prob norm_cdf mu_X mu_Y sigma_X sigma_Y).
Proof.
  split.
  - intros c.
    rewrite <- (pairwise_prob_affine norm_cdf 1 c mu_X mu_Y sigma_X sigma_Y)
      by lra.
    by rewrite !Rmult_1_l.
  - intros k Hk.
    rewrite <- (pairwise_prob_affine norm_cdf k 0 mu_X mu_Y sigma_X sigma_Y)
      by exact Hk.
    by rewrite !Rplus_0_r.
Qed.

Lemma calculate_pairwise_prob_shift_scale_witness :
  calculate_pairwise_prob Norm.Phi (1 + 5) (0 + 5) 1 2
  = calculate_pairwise_prob Norm.Phi 1 0 1 2 /\
  calculate_pairwise_prob Norm.Phi (3 * 1) (3 * 0) (3 * 1) (3 * 2)
  = calculate_pairwise_prob Norm.Phi 1 0 1 2.
Proof.
  destruct (calculate_pairwise_prob_shift_scale Norm.Phi 1 0 1 2)
    as [Hshift Hscale].
  split; [apply Hshift | apply Hscale; lra].
Defined.

Lemma sqrt_sum_squares_zero : sqrt (0 ^ 2 + 0 ^ 2) = 0.
Proof. replace (0 ^ 2 + 0 ^ 2) with 0 by ring. apply sqrt_0. Qed.

(** X2. With both deviations zero the division is by zero and no exception
    is raised: the result is 1 when the first mean is larger, 0 when it is
    smaller and [nan] when the means are equal. *)
Theorem calculate_pairwise_prob_zero_deviations
    (norm_cdf : R -> R) (mu_X mu_Y : R) :
  (mu_Y < mu_X -> calculate_pairwise_prob norm_cdf mu_X mu_Y 0 0 = Fin 1) /\
  (mu_X < mu_Y -> calculate_pairwise_prob norm_cdf mu_X mu_Y 0 0 = Fin 0) /\
  (mu_X = mu_Y -> calculate_pairwise_prob norm_cdf mu_X mu_Y 0 0 = NaN).
Proof.
  unfold calculate_pairwise_prob. rewrite sqrt_sum_squares_zero.
  cbn [Np.div]. destruct (Req_dec_T 0 0) as [_ | Hn]; [| lra].
  unfold Np.signed_inf.
  repeat split; intros H;
    destruct (Rlt_dec 0 (mu_X - mu_Y)), (Rlt_dec (mu_X - mu_Y) 0);
    try lra; reflexivity.
Qed.

Lemma calculate_pairwise_prob_zero_deviations_witness :
  calculate_pairwise_prob Norm.Phi 1 0 0 0 = Fin 1 /\
  calculate_pairwise_prob Norm.Phi 0 1 0 0 = Fin 0 /\
  calculate_pairwise_prob Norm.Phi 1 1 0 0 = NaN.
Proof.
  split; [| split].
  - apply (calculate_pairwise_prob_zero_deviations Norm.Phi 1 0). lra.
  - apply (calculate_pairwise_prob_zero_deviations Norm.Phi 0 1). lra.
  - by apply (calculate_pairwise_prob_zero_deviations Norm.Phi 1 1).
Defined.





(** ** Cross-entropy: errors, finiteness, sign and invariances *)

Section CrossEntropyErrors.

Variable norm_cdf : R -> R.
Variables mu sigma : gmap string R.


End CrossEntropyErrors.










Section CrossEntropyFinite.

Variable norm_cdf : R -> R.
Variables mu sigma : gmap string R.


End CrossEntropyFinite.



Lemma option_items_elem (X Y chosen : string) records :
  (X, Y, chosen) ∈ records ->
  X ∈ option_items records /\ Y ∈ option_items records.
Proof.
  induction records as [| [[X' Y'] c'] rest IH]; intros Hr.
  - by apply not_elem_of_nil in Hr.
  - simpl. apply elem_of_cons in Hr as [[= -> -> ->] | Hr].
    + split; [apply list_elem_of_here |].
      apply list_elem_of_further, list_elem_of_here.
    + destruct (IH Hr). split; by do 2 apply list_elem_of_further.
Qed.


Lemma record_target_cases r : record_target r = 0 \/ record_target r = 1.
Proof. destruct r as [[X Y] chosen]. simpl. case_decide; auto. Qed.






Lemma Rsum_constant (terms : list R) c :
  Forall (eq c) terms -> Rsum terms = INR (length terms) * c.
Proof.
  induction 1 as [| t terms <- _ IH]; [simpl; lra |].
  cbn [Rsum foldr length]. fold (Rsum terms). rewrite IH, S_INR. lra.
Qed.

(** X7. When every option of the data has the same mean (and a positive
    deviation) every model probability is one half and the cross-entropy is
    exactly [ln 2], whatever the choices were. *)
Theorem calculate_cross_entropy_equal_means
    (records : list comparison) (mu sigma : gmap string R) (m : R) :
  records <> [] ->
  (forall X, X ∈ option_items records ->
     mu !! X = Some m /\ exists s, sigma !! X = Some s /\ 0 < s) ->
  calculate_cross_entropy Norm.Phi records mu sigma = Ok (Fin (ln 2)).
Proof.
  intros Hne Hkeys.
  assert (Hhalf : forall r p, r ∈ records ->
            record_probability Norm.Phi mu sigma r = Some p -> p = 1 / 2).
  { intros [[X Y] chosen] p Hr. unfold record_probability.
    destruct (option_items_elem X Y chosen records Hr) as [HX HY].
    destruct (Hkeys X HX) as [-> (sX & -> & HsX)].
    destruct (Hkeys Y HY) as [-> (sY & -> & HsY)].
    cbn [mbind option_bind]. intros [= <-]. unfold spec_probability.
    replace ((m - m) / sqrt (sX ^ 2 + sY ^ 2)) with 0 by (unfold Rdiv; lra).
    apply NormFacts.Phi_0. }
  destruct (calculate_cross_entropy_of_terms Norm.Phi records mu sigma)
    as (terms & Hterms & Hrun); [exact Hne | | |].
  { intros X HX. destruct (Hkeys X HX) as [-> Hs]. split; [by eexists | done]. }
  { intros r p Hr Hp. rewrite (Hhalf r p Hr Hp). lra. }
  rewrite Hrun. do 2 f_equal.
  apply mapM_Some in Hterms.
  pose proof (Forall2_length _ _ _ Hterms) as Hlen.
  assert (Hall : Forall (eq (ln 2)) terms).
  { clear Hrun Hlen Hne Hkeys.
    induction Hterms as [| r t records terms Hr _ IH]; constructor.
    - unfold record_cross_entropy in Hr.
      destruct (record_probability Norm.Phi mu sigma r) as [p |] eqn:Hp;
        [| discriminate].
      injection Hr as <-.
      rewrite (Hhalf r p (list_elem_of_here _ _) Hp).
      unfold binary_cross_entropy.
      replace (1 - 1 / 2) with (1 / 2) by lra.
      replace (1 / 2) with (/ 2) by lra. rewrite ln_Rinv by lra.
      destruct (record_target_cases r) as [-> | ->]; lra.
    - apply IH. intros r' p' Hr'. apply Hhalf. by apply list_elem_of_further. }
  rewrite (Rsum_constant terms (ln 2) Hall), <- Hlen.
  field. apply not_0_INR. by destruct records.
Qed.

Lemma calculate_cross_entropy_equal_means_witness :
  calculate_cross_entropy Norm.Phi data
    (<["C" := 3]> (<["B" := 3]> (<["A" := 3]> ∅))) sigma_recorded
  = Ok (Fin (ln 2)).
Proof.
  apply (calculate_cross_entropy_equal_means data _ _ 3); [discriminate |].
  intros X HX. simpl in HX. rewrite !elem_of_cons, elem_of_nil in HX.
  assert (HX' : X = "A"%string \/ X = "B"%string \/ X = "C"%string)
    by tauto.
  destruct HX' as [-> | [-> | ->]];
    (split; [reflexivity | eexists; split; [reflexivity | lra]]).
Defined.

(** X8. Adding a constant to every mean, or multiplying every mean and
    every deviation by the same positive factor, changes neither the value
    nor the error of the cross-entropy: the data identify the parameters
    only up to location and scale. *)
Theorem calculate_cross_entropy_affine_invariant
    (norm_cdf : R -> R) (records : list comparison)
    (mu sigma : gmap string R) (k c : R) :
  0 < k ->
  calculate_cross_entropy norm_cdf records
    ((fun m => k * m + c) <$> mu) ((fun s => k * s) <$> sigma)
  = calculate_cross_entropy norm_cdf records mu sigma.
Proof.
  intros Hk. unfold calculate_cross_entropy. f_equal.
  generalize (PyInt 0).
  induction records as [| [[X Y] chosen] rest IH]; intros acc; [reflexivity |].
  cbn [cross_entropy_loop]. unfold dict_getitem. rewrite !lookup_fmap.
  destruct (mu !! X) as [mX |]; cbn [fmap option_fmap option_map mbind result_bind];
    [| reflexivity].
  destruct (mu !! Y) as [mY |]; cbn [fmap option_fmap option_map mbind result_bind];
    [| reflexivity].
  destruct (sigma !! X) as [sX |];
    cbn [fmap option_fmap option_map mbind result_bind]; [| reflexivity].
  destruct (sigma !! Y) as [sY |];
    cbn [fmap option_fmap option_map mbind result_bind]; [| reflexivity].
  rewrite pairwise_prob_affine by exact Hk. apply IH.
Qed.

Lemma calculate_cross_entropy_affine_invariant_witness :
  calculate_cross_entropy Norm.Phi data
    ((fun m => 2 * m + 5) <$> mu_recorded)
    ((fun s => 2 * s) <$> sigma_recorded)
  = calculate_cross_entropy Norm.Phi data mu_recorded sigma_recorded.
Proof.
  apply calculate_cross_entropy_affine_invariant. lra.
Defined.








(** ** The objective: vector length, dicts, shift, range, start point *)

Lemma unpack_params_short n params opts :
  forall i g,
    opts <> [] ->
    (length params < i + length opts + n)%nat ->
    unpack_params n params i opts g = Raise IndexError.
Proof.
  induction opts as [| opt rest IH]; intros i g Hne Hlen; [done |].
  cbn [unpack_params]. unfold list_getitem.
  destruct (params !! i) as [m |] eqn:Hm; [| reflexivity].
  cbn [mbind result_bind].
  destruct (params !! (i + n)%nat) as [s |] eqn:Hs; [| reflexivity].
  cbn [mbind result_bind].
  apply lookup_lt_Some in Hs.
  destruct rest as [| opt' rest]; [simpl in Hlen; lia |].
  apply IH; [done | simpl in *; lia].
Qed.

Lemma unpack_params_app n params extra opts :
  forall i g,
    (i + length opts + n <= length params)%nat ->
    unpack_params n (params ++ extra) i opts g
    = unpack_params n params i opts g.
Proof.
  induction opts as [| opt rest IH]; intros i g Hlen; [reflexivity |].
  simpl in Hlen. cbn [unpack_params]. unfold list_getitem.
  rewrite !lookup_app_l by lia.
  destruct (params !! i) as [m |]; [| reflexivity]. cbn [mbind result_bind].
  destruct (params !! (i + n)%nat) as [s |]; [| reflexivity].
  cbn [mbind result_bind]. apply IH. lia.
Qed.

(** X10. A vector shorter than [2·n] makes the objective raise
    [IndexError] (for a non-empty option list); entries beyond the first
    [2·n] are never read. *)
Theorem neg_log_likelihood_vector_length
    (norm_cdf : R -> R) (options : list string) (records : list comparison)
    (params : list R) (g : globals) :
  (options <> [] -> (length params < 2 * length options)%nat ->
   neg_log_likelihood norm_cdf options records params g = Raise IndexError) /\
  ((2 * length options <= length params)%nat ->
   forall extra,
     neg_log_likelihood norm_cdf options records (params ++ extra) g
     = neg_log_likelihood norm_cdf options records params g).
Proof.
  unfold neg_log_likelihood. split.
  - intros Hne Hlen. rewrite unpack_params_short; [reflexivity | done | lia].
  - intros Hlen extra. rewrite unpack_params_app by lia. reflexivity.
Qed.

Lemma neg_log_likelihood_vector_length_witness :
  neg_log_likelihood Norm.Phi ["A"; "B"] [("A", "B", "A")] [0; 0; 0]
    (Globals ∅ ∅) = Raise IndexError /\
  neg_log_likelihood Norm.Phi ["A"; "B"] [("A", "B", "A")]
    ([0; 0; 0; 0] ++ [7; 8]) (Globals ∅ ∅)
  = neg_log_likelihood Norm.Phi ["A"; "B"] [("A", "B", "A")] [0; 0; 0; 0]
      (Globals ∅ ∅).
Proof.
  split.
  - apply neg_log_likelihood_vector_length; [discriminate | simpl; lia].
  - apply neg_log_likelihood_vector_length. simpl. lia.
Defined.



Lemma two_options_NoDup : NoDup ["A"; "B"]%string.
Proof.
  repeat constructor; rewrite ?elem_of_cons, ?elem_of_nil;
    intros H; repeat destruct H as [H | H]; done.
Qed.

Lemma two_options_cover x :
  x ∈ option_items [("A", "B", "A")] -> x ∈ ["A"; "B"]%string.
Proof. intros Hx. exact Hx. Qed.


Lemma shift_means_length n c params :
  length (shift_means n c params) = length params.
Proof.
  unfold shift_means.
  rewrite length_app, length_fmap, length_take, length_drop. lia.
Qed.

Lemma spec_mu_shift options params c A :
  (length options <= length params)%nat ->
  spec_mu options (shift_means (length options) c params) A
  = (fun m => m + c) <$> spec_mu options params A.
Proof.
  intros Hlen. unfold spec_mu, shift_means.
  destruct (index_of A options) as [j |] eqn:Hj; [| reflexivity].
  apply index_of_lt in Hj. cbn [mbind option_bind].
  rewrite lookup_app_l by (rewrite length_fmap, length_take; lia).
  rewrite list_lookup_fmap, lookup_take_lt by lia. reflexivity.
Qed.

Lemma spec_sigma_shift options params c A :
  (length options <= length params)%nat ->
  spec_sigma options (shift_means (length options) c params) A
  = spec_sigma options params A.
Proof.
  intros Hlen. unfold spec_sigma, shift_means.
  destruct (index_of A options) as [j |] eqn:Hj; [| reflexivity].
  cbn [mbind option_bind].
  rewrite lookup_app_r by (rewrite length_fmap, length_take; lia).
  rewrite length_fmap, length_take, lookup_drop.
  do 2 f_equal. lia.
Qed.

Lemma spec_term_shift Φ options params c r :
  (length options <= length params)%nat ->
  spec_term Φ options (shift_means (length options) c params) r
  = spec_term Φ options params r.
Proof.
  intros Hlen. destruct r as [[A B] chosen]. unfold spec_term.
  rewrite !spec_mu_shift, !spec_sigma_shift by exact Hlen.
  destruct (spec_mu options params A) as [mA |]; [| reflexivity].
  destruct (spec_mu options params B) as [mB |]; [| reflexivity].
  cbn [fmap option_fmap option_map mbind option_bind].
  destruct (spec_sigma options params A) as [sA |]; [| reflexivity].
  destruct (spec_sigma options params B) as [sB |]; [| reflexivity].
  cbn [mbind option_bind].
  replace (mA + c - (mB + c)) with (mA - mB) by lra. reflexivity.
Qed.

Lemma spec_neg_log_likelihood_shift Φ options records params c :
  (length options <= length params)%nat ->
  spec_neg_log_likelihood Φ options records
    (shift_means (length options) c params)
  = spec_neg_log_likelihood Φ options records params.
Proof.
  intros Hlen. unfold spec_neg_log_likelihood. f_equal.
  induction records as [| r rest IH]; [reflexivity |].
  cbn [mapM]. by rewrite spec_term_shift, IH.
Qed.

(** X12. Adding one constant to all the means of the vector does not
    change the value of the objective: the likelihood has no unique
    maximiser. *)
Theorem neg_log_likelihood_shift_invariant
    (norm_cdf : R -> R) (options : list string) (records : list comparison)
    (params : list R) (c : R) (g : globals) :
  NoDup options ->
  (forall x, x ∈ option_items records -> x ∈ options) ->
  length params = (2 * length options)%nat ->
  exists v g1 v' g2,
    neg_log_likelihood norm_cdf options records params g = Ok (v, g1) /\
    neg_log_likelihood norm_cdf options records
      (shift_means (length options) c params) g = Ok (v', g2) /\
    py_value v' = py_value v.
Proof.
  intros Hnd Hcover Hlen.
  destruct (neg_log_likelihood_refines norm_cdf options records params g
              Hnd Hcover Hlen) as (v & g1 & Hrun & _ & Hspec).
  destruct (neg_log_likelihood_refines norm_cdf options records
              (shift_means (length options) c params) g Hnd Hcover)
    as (v' & g2 & Hrun' & _ & Hspec').
  { by rewrite shift_means_length. }
  exists v, g1, v', g2. split; [exact Hrun |]. split; [exact Hrun' |].
  rewrite spec_neg_log_likelihood_shift, Hspec in Hspec' by lia.
  by injection Hspec'.
Qed.

Lemma neg_log_likelihood_shift_invariant_witness :
  exists v g1 v' g2,
    neg_log_likelihood Norm.Phi ["A"; "B"] [("A", "B", "A")] [1; 2; 0; 0]
      (Globals ∅ ∅) = Ok (v, g1) /\
    neg_log_likelihood Norm.Phi ["A"; "B"] [("A", "B", "A")]
      (shift_means (length ["A"; "B"]%string) 5 [1; 2; 0; 0]) (Globals ∅ ∅)
    = Ok (v', g2) /\
    py_value v' = py_value v.
Proof.
  apply neg_log_likelihood_shift_invariant.
  - exact two_options_NoDup.
  - exact two_options_cover.
  - reflexivity.
Defined.

Section ObjectiveRange.

Variable norm_cdf : R -> R.
Hypothesis norm_cdf_range : forall z, 0 <= norm_cdf z <= 1.



End ObjectiveRange.




Lemma spec_at_zero options A :
  A ∈ options ->
  spec_mu options
    (replicate (length options) 0 ++ replicate (length options) 0) A = Some 0 /\
  spec_sigma options
    (replicate (length options) 0 ++ replicate (length options) 0) A = Some 1.
Proof.
  intros HA. destruct (index_of_elem A options HA) as [j Hj].
  pose proof (index_of_lt _ _ _ Hj) as Hlt.
  unfold spec_mu, spec_sigma. rewrite Hj. cbn [mbind option_bind]. split.
  - rewrite lookup_app_l by (rewrite length_replicate; lia).
    by apply lookup_replicate_2.
  - rewrite lookup_app_r by (rewrite length_replicate; lia).
    rewrite length_replicate, lookup_replicate_2 by lia.
    simpl. by rewrite exp_0.
Qed.

Lemma spec_term_at_zero options r :
  (forall x, x ∈ option_items [r] -> x ∈ options) ->
  spec_term Norm.Phi options
    (replicate (length options) 0 ++ replicate (length options) 0) r
  = Some (Fin (start_term r)).
Proof.
  destruct r as [[A B] chosen]. intros Hcover.
  destruct (spec_at_zero options A) as [HmA HsA];
    [apply Hcover; simpl; apply list_elem_of_here |].
  destruct (spec_at_zero options B) as [HmB HsB];
    [apply Hcover; simpl; apply list_elem_of_further, list_elem_of_here |].
  unfold spec_term, start_term. rewrite HmA, HmB, HsA, HsB.
  cbn [mbind option_bind fst snd].
  replace ((0 - 0) / (sqrt (1 ^ 2 + 1 ^ 2) + epsilon)) with 0
    by (unfold Rdiv; lra).
  rewrite NormFacts.Phi_0. pose proof epsilon_pos as Heps.
  case_decide; cbn [Np.log Np.neg].
  - destruct (Rlt_dec 0 (1 / 2)); [| lra]. cbn [Np.neg]. do 2 f_equal.
    replace (1 / 2) with (/ 2) by lra. rewrite ln_Rinv by lra. lra.
  - destruct (Rlt_dec 0 (1 - 1 / 2 + epsilon)); [| lra]. cbn [Np.neg].
    do 4 f_equal. lra.
Qed.

Lemma foldl_add_Fin (ts : list R) a :
  foldl Np.add (Fin a) (Fin <$> ts) = Fin (a + Rsum ts).
Proof.
  revert a. induction ts as [| t ts IH]; intros a; simpl.
  - f_equal. lra.
  - rewrite IH. f_equal. unfold Rsum. lra.
Qed.

Lemma Rsum_start_terms records :
  Rsum (start_term <$> records)
  = INR (first_chosen_count records) * ln 2
    + INR (length records - first_chosen_count records)
      * - ln (1 / 2 + epsilon).
Proof.
  unfold first_chosen_count.
  induction records as [| r rest IH]; [simpl; lra |].
  rewrite fmap_cons, filter_cons. cbn [Rsum foldr]. fold (Rsum (start_term <$> rest)).
  rewrite IH. unfold start_term.
  pose proof (length_filter (fun r : comparison => r.2 = r.1.1) rest) as Hle.
  case_decide; cbn [length].
  - rewrite S_INR.
    replace (S (length rest) - S (length (filter _ rest)))%nat
      with (length rest - length (filter (fun r : comparison => r.2 = r.1.1) rest))%nat
      by lia.
    lra.
  - replace (S (length rest) - length (filter (fun r : comparison => r.2 = r.1.1) rest))%nat
      with (S (length rest - length (filter (fun r : comparison => r.2 = r.1.1) rest)))%nat
      by lia.
    rewrite S_INR. lra.
Qed.

(** X14. At the all-zero vector from which the notebook starts the
    optimizer, every model probability is one half: the objective is
    [ln 2] for each record whose first option was chosen plus
    [−ln(1/2 + ε)] for each other record. *)
Theorem neg_log_likelihood_at_start
    (options : list string) (records : list comparison) (g : globals) :
  NoDup options ->
  (forall x, x ∈ option_items records -> x ∈ options) ->
  exists v g',
    neg_log_likelihood Norm.Phi options records
      (replicate (length options) 0 ++ replicate (length options) 0) g
    = Ok (v, g') /\
    py_value v
    = Fin (INR (first_chosen_count records) * ln 2
           + INR (length records - first_chosen_count records)
             * - ln (1 / 2 + epsilon)).
Proof.
  intros Hnd Hcover.
  destruct (neg_log_likelihood_refines Norm.Phi options records
              (replicate (length options) 0 ++ replicate (length options) 0)
              g Hnd Hcover) as (v & g' & Hrun & _ & Hspec).
  { rewrite length_app, !length_replicate. lia. }
  exists v, g'. split; [exact Hrun |].
  assert (Hterms : mapM (spec_term Norm.Phi options
                           (replicate (length options) 0
                            ++ replicate (length options) 0)) records
                   = Some (Fin <$> (start_term <$> records))).
  { clear Hrun Hspec. induction records as [| r rest IH]; [reflexivity |].
    cbn [mapM]. rewrite spec_term_at_zero, IH.
    - reflexivity.
    - intros x Hx. apply Hcover. destruct r as [[A B] ch]. simpl.
      by do 2 apply list_elem_of_further.
    - intros x Hx. apply Hcover. destruct r as [[A B] ch]. simpl in *.
      apply elem_of_cons in Hx as [-> | Hx]; [apply list_elem_of_here |].
      apply elem_of_cons in Hx as [-> | Hx];
        [apply list_elem_of_further, list_elem_of_here |].
      by apply not_elem_of_nil in Hx. }
  unfold spec_neg_log_likelihood in Hspec. rewrite Hterms in Hspec.
  cbn [fmap option_fmap option_map] in Hspec. unfold np_sum in Hspec.
  rewrite foldl_add_Fin, Rsum_start_terms, Rplus_0_l in Hspec.
  by injection Hspec.
Qed.

Lemma neg_log_likelihood_at_start_witness :
  exists v g',
    neg_log_likelihood Norm.Phi ["A"; "B"] [("A", "B", "A")]
      (replicate (length ["A"; "B"]%string) 0
       ++ replicate (length ["A"; "B"]%string) 0) (Globals ∅ ∅)
    = Ok (v, g') /\
    py_value v
    = Fin (INR (first_chosen_count [("A", "B", "A")]) * ln 2
           + INR (length [("A", "B", "A")]
                  - first_chosen_count [("A", "B", "A")])
             * - ln (1 / 2 + epsilon)).
Proof.
  apply neg_log_likelihood_at_start.
  - exact two_options_NoDup.
  - exact two_options_cover.
Defined.

(** ** The estimator: the table and the vector *)

Lemma tabulate_lookup opts mu_estimates sigma_estimates :
  forall i rows,
    tabulate i opts mu_estimates sigma_estimates = Ok rows ->
    forall j row,
      rows !! j = Some row ->
      opts !! j = Some row.1 /\
      mu_estimates !! (i + j)%nat = Some row.2.1 /\
      sigma_estimates !! (i + j)%nat = Some row.2.2.
Proof.
  induction opts as [| opt rest IH]; intros i rows; simpl.
  - intros [= <-] j row Hj. by rewrite lookup_nil in Hj.
  - unfold list_getitem.
    destruct (mu_estimates !! i) as [m |] eqn:Hm; [| discriminate].
    destruct (sigma_estimates !! i) as [s |] eqn:Hs; [| discriminate].
    cbn [mbind result_bind].
    destruct (tabulate (S i) rest mu_estimates sigma_estimates)
      as [rows' |] eqn:Hrows; [| discriminate].
    intros [= <-] [| j] row Hj; simpl in Hj.
    + injection Hj as <-. rewrite Nat.add_0_r. by simpl.
    + destruct (IH _ _ Hrows j row Hj) as (H1 & H2 & H3).
      replace (i + S j)%nat with (S i + j)%nat by lia. by simpl.
Qed.

(** X15. A run that returns had at least two options and a call of the
    optimizer, on the start point and the bounds of the notebook, that
    returned; its table has one row per option, in the order of the option
    list, and the row of an option holds the entries of [result.x] that the
    objective reads for that option: [x[i]] and [exp(x[i + n])] at the
    option's position [i]. The log-likelihood is [-result.fun]. *)
Theorem fit_table_reads_vector
    (norm_cdf : R -> R) (list_of_set : gset string -> list string)
    (minimize : objective -> list R -> list (R * R) -> globals ->
                result (OptimizeResult * globals))
    (records : list comparison) (est : estimates) :
  set_listing list_of_set ->
  fit norm_cdf list_of_set minimize records = Ok est ->
  exists res g',
    minimize
      (neg_log_likelihood norm_cdf (options_of list_of_set records) records)
      (replicate (size (option_set records)) 0
       ++ replicate (size (option_set records)) 0)
      (replicate (size (option_set records)) (-10, 10)
       ++ replicate (size (option_set records)) (-10, 2))
      (Globals (dict_of_keys 0 (options_of list_of_set records))
               (dict_of_keys 1 (options_of list_of_set records)))
    = Ok (res, g') /\
    (2 <= size (option_set records))%nat /\
    (parameters est).*1 = options_of list_of_set records /\
    Forall (fun row =>
              spec_mu (options_of list_of_set records) (res_x res) row.1
              = Some row.2.1 /\
              spec_sigma (options_of list_of_set records) (res_x res) row.1
              = Some row.2.2)
      (parameters est) /\
    log_likelihood est = Np.neg (res_fun res) /\
    converged est = res_success res.
Proof.
  intros Hset Hfit.
  pose proof (options_of_length list_of_set Hset records) as Hlen.
  pose proof (options_of_NoDup list_of_set Hset records) as Hnd.
  destruct (Nat.lt_ge_cases (length (options_of list_of_set records)) 2)
    as [Hfew | Hmany].
  { by rewrite fit_few_options in Hfit. }
  rewrite fit_unfold_enough in Hfit by exact Hmany. cbv zeta in Hfit.
  rewrite Hlen in Hfit.
  destruct (minimize _ _ _ _) as [[res g'] |] eqn:Hmin; [| discriminate].
  cbn [mbind result_bind fst] in Hfit.
  destruct (tabulate _ _ _ _) as [rows |] eqn:Hrows; [| discriminate].
  cbn [mbind result_bind mret result_ret] in Hfit.
  apply Ok_inj in Hfit. subst est. cbn [parameters log_likelihood converged].
  exists res, g'. split; [reflexivity |]. split; [lia |].
  destruct (tabulate_rows _ _ _ _ _ Hrows) as [Hkeys _].
  split; [exact Hkeys |]. split; [| done].
  apply Forall_lookup_2. intros j row Hj.
  destruct (tabulate_lookup _ _ _ _ _ Hrows j row Hj) as (Hopt & Hm & Hs).
  simpl in Hm, Hs.
  assert (Hidx : index_of row.1 (options_of list_of_set records) = Some j).
  { destruct (index_of_elem row.1 (options_of list_of_set records))
      as [j' Hj']; [by eapply list_elem_of_lookup_2 |].
    pose proof (index_of_Some _ _ _ Hj') as Hj''.
    by rewrite (NoDup_lookup _ _ _ _ Hnd Hopt Hj''). }
  pose proof (lookup_lt_Some _ _ _ Hopt) as Hlt.
  unfold spec_mu, spec_sigma. rewrite Hidx. cbn [mbind option_bind].
  rewrite lookup_take_lt in Hm by lia.
  rewrite list_lookup_fmap, lookup_drop in Hs. rewrite Hlen.
  by split.
Qed.

Lemma fit_table_reads_vector_witness :
  exists est res g',
    fit Norm.Phi elements minimize_initial_point data = Ok est /\
    minimize_initial_point
      (neg_log_likelihood Norm.Phi (options_of elements data) data)
      (replicate (size (option_set data)) 0
       ++ replicate (size (option_set data)) 0)
      (replicate (size (option_set data)) (-10, 10)
       ++ replicate (size (option_set data)) (-10, 2))
      (Globals (dict_of_keys 0 (options_of elements data))
               (dict_of_keys 1 (options_of elements data)))
    = Ok (res, g') /\
    (parameters est).*1 = options_of elements data /\
    Forall (fun row =>
              spec_mu (options_of elements data) (res_x res) row.1
              = Some row.2.1 /\
              spec_sigma (options_of elements data) (res_x res) row.1
              = Some row.2.2)
      (parameters est).
Proof.
  destruct (fit_initial_point_returns Norm.Phi elements data elements_listing)
    as [est Hest].
  - rewrite size_option_set_data. lia.
  - destruct (fit_table_reads_vector Norm.Phi elements minimize_initial_point
                data est elements_listing Hest)
      as (res & g' & Hmin & _ & Hkeys & Hrows & _).
    exists est, res, g'. repeat split; assumption.
Defined.

Lemma tabulate_Raise opts mu_estimates sigma_estimates :
  forall i e,
    tabulate i opts mu_estimates sigma_estimates = Raise e ->
    e = IndexError /\
    ((length mu_estimates < i + length opts)%nat \/
     (length sigma_estimates < i + length opts)%nat).
Proof.
  induction opts as [| opt rest IH]; intros i e; simpl; [discriminate |].
  unfold list_getitem.
  destruct (mu_estimates !! i) as [m |] eqn:Hm.
  2:{ intros [= <-]. split; [reflexivity | left].
      apply lookup_ge_None_1 in Hm. lia. }
  destruct (sigma_estimates !! i) as [s |] eqn:Hs.
  2:{ intros [= <-]. split; [reflexivity | right].
      apply lookup_ge_None_1 in Hs. lia. }
  cbn [mbind result_bind].
  destruct (tabulate (S i) rest mu_estimates sigma_estimates)
    as [rows' | e'] eqn:Hrows; [discriminate |].
  intros [= <-]. destruct (IH _ _ Hrows) as [-> Hlen].
  split; [reflexivity | lia].
Qed.

(** X19. The first cell fails in three ways only: with [ValueError] when
    fewer than two options are listed; with whatever the optimizer raises;
    and with [IndexError], in the printing loop, when the optimizer returns
    a vector shorter than [2·n]. In every other case it returns. *)
Theorem fit_errors
    (norm_cdf : R -> R) (list_of_set : gset string -> list string)
    (minimize : objective -> list R -> list (R * R) -> globals ->
                result (OptimizeResult * globals))
    (records : list comparison) (e : py_exn) :
  let options := options_of list_of_set records in
  let n := length options in
  let run :=
    minimize (neg_log_likelihood norm_cdf options records)
      (replicate n 0 ++ replicate n 0)
      (replicate n (-10, 10) ++ replicate n (-10, 2))
      (Globals (dict_of_keys 0 options) (dict_of_keys 1 options)) in
  fit norm_cdf list_of_set minimize records = Raise e
  <-> ((n < 2)%nat /\
       e = ValueError "Insufficient unique options in the data") \/
      ((2 <= n)%nat /\ run = Raise e) \/
      ((2 <= n)%nat /\ e = IndexError /\
       exists res g', run = Ok (res, g') /\
                      (length (res_x res) < 2 * n)%nat).
Proof.
  intros options n run.
  destruct (Nat.lt_ge_cases n 2) as [Hn | Hn].
  - rewrite (fit_few_options norm_cdf list_of_set minimize records Hn).
    split.
    + intros [= <-]. by left.
    + intros [[_ ->] | [[Hn' _] | [Hn' _]]]; [reflexivity | lia | lia].
  - rewrite (fit_unfold_enough norm_cdf list_of_set minimize records Hn).
    cbv zeta. fold options. fold n. fold run.
    destruct run as [[res g'] | e'] eqn:Hrun; cbn [mbind result_bind fst].
    + destruct (tabulate 0 options (take n (res_x res))
                  (exp <$> drop n (res_x res))) as [rows | e'] eqn:Hrows;
        cbn [mbind result_bind].
      * split; [discriminate |].
        intros [[Hn' _] | [[_ Hr] | (_ & _ & res' & g'' & Hr & Hlen)]];
          [lia | discriminate |].
        injection Hr as <- <-.
        exfalso.
        destruct (tabulate_rows _ _ _ _ _ Hrows) as [Hk _].
        assert (Hlenrows : length rows = n)
          by (unfold n; rewrite <- Hk; by rewrite length_fmap).
        destruct (lookup_lt_is_Some_2 rows (n - 1)) as [row Hrow]; [lia |].
        destruct (tabulate_lookup _ _ _ _ _ Hrows _ _ Hrow) as (_ & _ & Hs).
        apply lookup_lt_Some in Hs.
        rewrite length_fmap, length_drop in Hs. lia.
      * split.
        -- intros [= <-]. destruct (tabulate_Raise _ _ _ _ _ Hrows)
             as [-> Hlen].
           right; right. split; [exact Hn |]. split; [reflexivity |].
           exists res, g'. split; [reflexivity |].
           rewrite length_take, length_fmap, length_drop in Hlen. lia.
        -- intros [[Hn' _] | [[_ Hr] | (_ & -> & res' & g'' & Hr & Hlen)]];
             [lia | discriminate |].
           destruct (tabulate_Raise _ _ _ _ _ Hrows) as [-> _]. reflexivity.
    + split.
      * intros [= <-]. right; left. by split.
      * intros [[Hn' _] | [[_ Hr] | (_ & _ & res' & g'' & Hr & _)]];
          [lia | by injection Hr as -> | discriminate].
Qed.

Lemma fit_errors_witness :
  fit Norm.Phi elements minimize_initial_point []
  = Raise (ValueError "Insufficient unique options in the data").
Proof.
  apply (proj2 (fit_errors Norm.Phi elements minimize_initial_point [] _)).
  left. split; [vm_compute; lia | reflexivity].
Defined.

(** ** The raw-frequency cell *)

Lemma sum_ones_count cond data :
  sum_ones cond data = Z.of_nat (length (filter (fun r => cond r = true) data)).
Proof.
  unfold sum_ones.
  assert (H : forall acc,
            foldl (fun acc r => if cond r then (acc + 1)%Z else acc) acc data
            = (acc + Z.of_nat (length (filter (fun r => cond r = true) data)))%Z).
  { induction data as [| r rest IH]; intros acc; simpl; [lia |].
    rewrite IH, filter_cons.
    destruct (cond r) eqn:Hc; case_decide; try done; simpl; lia. }
  rewrite H. lia.
Qed.

Lemma is_AB_comparison_spec a b chosen :
  is_AB_comparison (a, b, chosen) = true
  <-> (a = "A" /\ b = "B") \/ (a = "B" /\ b = "A").
Proof.
  unfold is_AB_comparison. rewrite bool_decide_eq_true. split.
  - intros Heq.
    assert (Hin : forall x : string, x ∈ [a; b] <-> x ∈ ["A"; "B"]%string).
    { intros x. by rewrite <- !(elem_of_list_to_set (C := gset string)), Heq. }
    pose proof (proj2 (Hin "A"%string)) as HA.
    pose proof (proj2 (Hin "B"%string)) as HB.
    pose proof (proj1 (Hin a)) as Ha. pose proof (proj1 (Hin b)) as Hb.
    rewrite !elem_of_cons, !elem_of_nil in HA, HB, Ha, Hb.
    destruct Ha as [-> | [-> | []]]; [auto | auto |];
      destruct Hb as [-> | [-> | []]]; auto.
    + destruct HB as [HB | [HB | []]]; [auto | discriminate | discriminate].
    + destruct HA as [HA | [HA | []]]; [auto | discriminate | discriminate].
  - intros [[-> ->] | [-> ->]]; [reflexivity |].
    apply set_eq. intros x.
    rewrite !elem_of_list_to_set, !elem_of_cons, !elem_of_nil. tauto.
Qed.

Lemma is_A_win_spec a b chosen :
  is_A_win (a, b, chosen) = true
  <-> ((a = "A" /\ b = "B") \/ (a = "B" /\ b = "A")) /\ chosen = "A".
Proof.
  unfold is_A_win.
  rewrite orb_true_iff, !andb_true_iff, !bool_decide_eq_true. tauto.
Qed.

Lemma is_A_win_AB r : is_A_win r = true -> is_AB_comparison r = true.
Proof.
  destruct r as [[a b] chosen].
  rewrite is_A_win_spec, is_AB_comparison_spec. tauto.
Qed.

Lemma A_wins_le_total data :
  (0 <= A_wins data <= total_AB_comparisons data)%Z.
Proof.
  unfold A_wins, total_AB_comparisons. rewrite !sum_ones_count.
  split; [lia |]. apply inj_le.
  induction data as [| r rest IH]; [done |].
  rewrite !filter_cons.
  pose proof (is_A_win_AB r).
  repeat case_decide; simpl; try lia. exfalso. auto.
Qed.

Lemma raw_prob_A_greater_B_data : raw_prob_A_greater_B data = Ok (1 / 4).
Proof.
  unfold raw_prob_A_greater_B.
  replace (A_wins data) with 1%Z by (vm_compute; reflexivity).
  replace (total_AB_comparisons data) with 4%Z by (vm_compute; reflexivity).
  reflexivity.
Qed.

(** X16. The wins of A are counted among the comparisons of A with B only,
    so they never exceed the total, and the raw frequency, when the
    division goes through, lies between 0 and 1, also for records whose
    choice is neither option. *)
Theorem raw_prob_A_greater_B_in_unit_interval (records : list comparison) :
  (0 <= A_wins records <= total_AB_comparisons records)%Z /\
  (forall q, raw_prob_A_greater_B records = Ok q -> 0 <= q <= 1).
Proof.
  pose proof (A_wins_le_total records) as [Hlo Hhi]. split; [done |].
  intros q. unfold raw_prob_A_greater_B, int_truediv.
  case_decide as Hz; [discriminate |]. intros Hq. apply Ok_inj in Hq.
  subst q.
  assert (Hpos : 0 < IZR (total_AB_comparisons records)).
  { apply IZR_lt. lia. }
  apply IZR_le in Hlo, Hhi. split.
  - apply Rmult_le_pos; [exact Hlo |]. left. by apply Rinv_0_lt_compat.
  - apply Rmult_le_reg_r with (IZR (total_AB_comparisons records));
      [exact Hpos |].
    unfold Rdiv. rewrite Rmult_assoc, Rinv_l by lra. lra.
Qed.

Lemma raw_prob_A_greater_B_in_unit_interval_witness :
  raw_prob_A_greater_B data = Ok (1 / 4) /\ 0 <= 1 / 4 <= 1.
Proof.
  split; [exact raw_prob_A_greater_B_data |].
  apply (raw_prob_A_greater_B_in_unit_interval data).
  exact raw_prob_A_greater_B_data.
Defined.

Lemma total_AB_zero_iff records :
  total_AB_comparisons records = 0%Z
  <-> forall r, r ∈ records -> is_AB_comparison r = false.
Proof.
  unfold total_AB_comparisons. rewrite sum_ones_count.
  induction records as [| r rest IH].
  - split; [intros _ r Hr; by apply not_elem_of_nil in Hr | done].
  - rewrite filter_cons. destruct (is_AB_comparison r) eqn:Hr.
    + case_decide as Hc; [| done]. simpl. split; [lia |].
      intros Hall. specialize (Hall r (list_elem_of_here _ _)). congruence.
    + case_decide as Hc; [done |]. rewrite IH. split.
      * intros Hall r' Hr'. apply elem_of_cons in Hr' as [-> | Hr']; auto.
      * intros Hall r' Hr'. apply Hall. by apply list_elem_of_further.
Qed.

(** X17. The division raises [ZeroDivisionError] exactly when no record
    compares A with B, in either order; the cell raises nothing else. *)
Theorem raw_prob_A_greater_B_zero_division (records : list comparison) :
  (raw_prob_A_greater_B records = Raise ZeroDivisionError
   <-> forall a b chosen,
         (a, b, chosen) ∈ records ->
         ~ ((a = "A" /\ b = "B") \/ (a = "B" /\ b = "A"))) /\
  (forall e, raw_prob_A_greater_B records = Raise e -> e = ZeroDivisionError).
Proof.
  unfold raw_prob_A_greater_B, int_truediv. split.
  - case_decide as Hz.
    + pose proof (proj1 (total_AB_zero_iff records) Hz) as Hnone.
      split; [| done]. intros _ a b chosen Hr Hab.
      apply (is_AB_comparison_spec a b chosen) in Hab.
      rewrite (Hnone _ Hr) in Hab. discriminate.
    + split; [discriminate |]. intros Hnone. exfalso. apply Hz.
      apply total_AB_zero_iff. intros [[a b] chosen] Hr.
      apply not_true_is_false. rewrite is_AB_comparison_spec.
      by apply (Hnone a b chosen).
  - intros e. case_decide; [by intros [= <-] | discriminate].
Qed.

Lemma raw_prob_A_greater_B_zero_division_witness :
  raw_prob_A_greater_B [("A", "C", "A")] = Raise ZeroDivisionError.
Proof.
  apply raw_prob_A_greater_B_zero_division.
  intros a b chosen Hr. apply list_elem_of_singleton in Hr.
  injection Hr as -> -> ->. intros [[_ H] | [H _]]; discriminate.
Defined.

Lemma sum_ones_Permutation cond records records' :
  records ≡ₚ records' -> sum_ones cond records = sum_ones cond records'.
Proof. intros Hperm. rewrite !sum_ones_count. by rewrite Hperm. Qed.

Lemma sum_ones_swap cond records :
  (forall r, cond (swap_presentation r) = cond r) ->
  sum_ones cond (swap_presentation <$> records) = sum_ones cond records.
Proof.
  intros Hcond. rewrite !sum_ones_count. f_equal.
  induction records as [| r rest IH]; [done |].
  rewrite fmap_cons, !filter_cons, Hcond.
  case_decide; simpl; by rewrite IH.
Qed.

(** X18. The raw frequency depends neither on the order of the records
    nor on the order in which each record presents its two options. *)
Theorem raw_prob_A_greater_B_order_independent
    (records records' : list comparison) :
  records ≡ₚ records' ->
  raw_prob_A_greater_B records' = raw_prob_A_greater_B records /\
  raw_prob_A_greater_B (swap_presentation <$> records)
  = raw_prob_A_greater_B records.
Proof.
  intros Hperm. unfold raw_prob_A_greater_B, A_wins, total_AB_comparisons.
  split.
  - by rewrite !(sum_ones_Permutation _ _ _ Hperm).
  - rewrite !sum_ones_swap; [reflexivity | |].
    + intros [[a b] chosen]. apply eq_true_iff_eq. simpl swap_presentation.
      rewrite !is_AB_comparison_spec. tauto.
    + intros [[a b] chosen]. apply eq_true_iff_eq. simpl swap_presentation.
      rewrite !is_A_win_spec. tauto.
Qed.

Lemma raw_prob_A_greater_B_order_independent_witness :
  raw_prob_A_greater_B (reverse data) = raw_prob_A_greater_B data /\
  raw_prob_A_greater_B (swap_presentation <$> data)
  = raw_prob_A_greater_B data.
Proof.
  apply raw_prob_A_greater_B_order_independent.
  symmetry. apply reverse_Permutation.
Defined.
